(** * OsuStreamGen: the osu!.db primitive codec and database decoder

    A shallow embedding of [src/db/fmt.py], [src/db/model.py] and
    [src/db/parser.py], and the properties of the decoder stated over it.

    Conventions of the embedding:
    - a Python [int] is a [Z]; a [bytes] object is a [list byte];
    - a Python [str] is the list of its Unicode code points;
    - a Python [float] is kept as the IEEE-754 bit pattern it was unpacked
      from ([struct.unpack] is a bijection on bit patterns, and no property
      below computes with floats);
    - a binary file object is the list of the bytes not read yet: [read]
      returns a prefix of it and leaves the rest;
    - a call that raises is [Raise e]; the [logging] calls are dropped. *)

From Stdlib Require Import ZArith Lia List String Strings.Byte Bool Permutation.
From stdpp Require Import base option list gmap.
Import ListNotations.
Local Open Scope Z_scope.

(** ** Python values *)

Definition bytes := list byte.

(** A [str]: the sequence of its code points (each in [0, 0x10FFFF]). *)
Definition str := list Z.

(** A [float], named by the bits [struct.unpack] decoded it from:
    format ["f"] (4 bytes) or format ["d"] (8 bytes). *)
Inductive pyfloat :=
| Float32 (bits : Z)
| Float64 (bits : Z).

(** The exceptions the codec can raise. *)
Inductive exn :=
| ValueError          (* parse_string: unknown indicator; bytes([n]) out of range *)
| TypeError           (* ord(b"") on an empty read *)
| IndexError          (* b""[0] on an empty read *)
| StructError         (* struct.unpack on a buffer of the wrong size *)
| UnicodeDecodeError  (* bytes.decode("utf-8") *)
| UnicodeEncodeError  (* str.encode("utf-8") on a surrogate *)
| OverflowError.      (* fobj.read(n) with n that does not fit an index *)

Inductive result_of (A : Type) :=
| Ok (a : A)
| Raise (e : exn).
Arguments Ok {A} a.
Arguments Raise {A} e.

(** ** The file object *)

(** The unread suffix of the file. *)
Definition fileobj := list byte.

(** A computation that reads from the file object: it returns a value and the
    file object after the reads, or raises. *)
Definition M (A : Type) := fileobj -> result_of (A * fileobj).

Definition ret {A} (a : A) : M A := fun f => Ok (a, f).

Definition raise {A} (e : exn) : M A := fun _ => Raise e.

Definition bind {A B} (m : M A) (k : A -> M B) : M B :=
  fun f => match m f with
           | Ok (a, f') => k a f'
           | Raise e => Raise e
           end.

Notation "'let*' x ':=' m 'in' k" := (bind m (fun x => k))
  (at level 10, x pattern, m at level 100, k at level 200).

(** [fobj.read(n)]: at most [n] bytes, fewer when the file ends first; a
    negative [n] reads to the end of the file. The argument is converted to
    the index type of the machine, so a request of [2^63] bytes or more
    raises OverflowError before anything is read. No file holds [2^63]
    bytes, so such a request is always for more than the file has: the test
    is written that way, and the lists of the model need no bound on their
    length ([read_as_python] below states it with the plain test).

    The requests below [2^63] are served as an in-memory stream serves them.
    A buffered disk file allocates the whole request first and raises
    MemoryError when the host cannot; that depends on the host and is not
    modelled. Only a String payload that is cut short asks for more than the
    file has with a length that is not a small constant, and what is proved
    of it is proved of the calls that return. *)
Definition read (n : Z) : M bytes :=
  fun f => if n <? 0 then Ok (f, [])
           else if (n <? 2 ^ 63) || (n <=? Z.of_nat (length f)) then
             Ok (take (Z.to_nat n) f, drop (Z.to_nat n) f)
           else Raise OverflowError.

(** [[m for _ in range(n)]] *)
Fixpoint repeat_read {A} (n : nat) (m : M A) : M (list A) :=
  match n with
  | O => ret []
  | S n' => let* x := m in let* xs := repeat_read n' m in ret (x :: xs)
  end.

Definition for_range {A} (n : Z) (m : M A) : M (list A) :=
  repeat_read (Z.to_nat n) m.

(** ** Library functions of Python used by the codec *)

Definition byte_val (b : byte) : Z := Z.of_N (Byte.to_N b).
Arguments byte_val : simpl never.

(** [bytes([n])]: a ValueError unless [n] is in [range(256)]. *)
Definition bytes_of_int (n : Z) : result_of bytes :=
  if (0 <=? n) && (n <? 256) then
    match Byte.of_N (Z.to_N n) with
    | Some b => Ok [b]
    | None => Raise ValueError
    end
  else Raise ValueError.

(** [int.from_bytes(bs, byteorder="little")], on a buffer of any length. *)
Fixpoint int_from_bytes_little (bs : bytes) : Z :=
  match bs with
  | [] => 0
  | b :: bs' => byte_val b + 256 * int_from_bytes_little bs'
  end.

(** [struct.unpack("f", bs)[0]] and [struct.unpack("d", bs)[0]]: a buffer
    that is not exactly 4 (8) bytes long is a [struct.error]. The format has
    no byte-order mark, so the order is the machine's: little-endian on the
    machines that write and read osu!.db. *)
Definition struct_unpack_f (bs : bytes) : result_of pyfloat :=
  if (length bs =? 4)%nat then Ok (Float32 (int_from_bytes_little bs))
  else Raise StructError.

Definition struct_unpack_d (bs : bytes) : result_of pyfloat :=
  if (length bs =? 8)%nat then Ok (Float64 (int_from_bytes_little bs))
  else Raise StructError.

Definition lift {A} (r : result_of A) : M A :=
  fun f => match r with Ok a => Ok (a, f) | Raise e => Raise e end.

(** [ord(b)] for a bytes object: defined on length 1 only. *)
Definition ord (b : bytes) : result_of Z :=
  match b with
  | [x] => Ok (byte_val x)
  | _ => Raise TypeError
  end.

Fixpoint bytes_eqb (a b : bytes) : bool :=
  match a, b with
  | [], [] => true
  | x :: a', y :: b' => Byte.eqb x y && bytes_eqb a' b'
  | _, _ => false
  end.

(** The byte of a number already known to be in [range(256)]. *)
Definition byte_of (n : Z) : byte :=
  match Byte.of_N (Z.to_N n) with
  | Some b => b
  | None => x00
  end.

(** [n.to_bytes(width, "little")] for a number that fits. *)
Fixpoint int_to_bytes_little (width : nat) (n : Z) : bytes :=
  match width with
  | O => []
  | S w => byte_of (n mod 256) :: int_to_bytes_little w (n / 256)
  end.

(** [struct.pack("I", n)]: the four bytes of an unsigned int in the machine's
    order, a [struct.error] when [n] is not in [0, 2^32). *)
Definition struct_pack_I (n : Z) : result_of bytes :=
  if (0 <=? n) && (n <? 2 ^ 32) then Ok (int_to_bytes_little 4 n)
  else Raise StructError.

(** *** UTF-8 ([str.encode("utf-8")] and [bytes.decode("utf-8")], strict) *)

Definition utf8_encode_char (c : Z) : result_of bytes :=
  if c <? 0 then Raise ValueError
  else if c <? 0x80 then Ok [byte_of c]
  else if c <? 0x800 then
    Ok [byte_of (Z.lor 0xC0 (Z.shiftr c 6));
        byte_of (Z.lor 0x80 (Z.land c 0x3F))]
  else if c <? 0x10000 then
    if (0xD800 <=? c) && (c <=? 0xDFFF) then Raise UnicodeEncodeError
    else
      Ok [byte_of (Z.lor 0xE0 (Z.shiftr c 12));
          byte_of (Z.lor 0x80 (Z.land (Z.shiftr c 6) 0x3F));
          byte_of (Z.lor 0x80 (Z.land c 0x3F))]
  else if c <? 0x110000 then
    Ok [byte_of (Z.lor 0xF0 (Z.shiftr c 18));
        byte_of (Z.lor 0x80 (Z.land (Z.shiftr c 12) 0x3F));
        byte_of (Z.lor 0x80 (Z.land (Z.shiftr c 6) 0x3F));
        byte_of (Z.lor 0x80 (Z.land c 0x3F))]
  else Raise ValueError.

Fixpoint utf8_encode (s : str) : result_of bytes :=
  match s with
  | [] => Ok []
  | c :: s' =>
      match utf8_encode_char c with
      | Raise e => Raise e
      | Ok bc =>
          match utf8_encode s' with
          | Raise e => Raise e
          | Ok bs => Ok (bc ++ bs)
          end
      end
  end.

Definition in_range (lo hi : Z) (b : byte) : bool :=
  (lo <=? byte_val b) && (byte_val b <=? hi).

(** The six payload bits of a continuation byte. *)
Definition cont_bits (b : byte) : Z := Z.land (byte_val b) 0x3F.

Definition decoded (c : Z) (r : result_of str) : result_of str :=
  match r with
  | Ok s => Ok (c :: s)
  | Raise e => Raise e
  end.

Fixpoint utf8_decode (bs : bytes) : result_of str :=
  match bs with
  | [] => Ok []
  | b0 :: r0 =>
      let v0 := byte_val b0 in
      if v0 <? 0x80 then decoded v0 (utf8_decode r0)
      else if in_range 0xC2 0xDF b0 then
        match r0 with
        | b1 :: r1 =>
            if in_range 0x80 0xBF b1 then
              decoded (Z.lor (Z.shiftl (Z.land v0 0x1F) 6) (cont_bits b1))
                      (utf8_decode r1)
            else Raise UnicodeDecodeError
        | _ => Raise UnicodeDecodeError
        end
      else if in_range 0xE0 0xEF b0 then
        match r0 with
        | b1 :: b2 :: r2 =>
            let lo := if v0 =? 0xE0 then 0xA0 else 0x80 in
            let hi := if v0 =? 0xED then 0x9F else 0xBF in
            if in_range lo hi b1 && in_range 0x80 0xBF b2 then
              decoded (Z.lor (Z.shiftl (Z.land v0 0x0F) 12)
                        (Z.lor (Z.shiftl (cont_bits b1) 6) (cont_bits b2)))
                      (utf8_decode r2)
            else Raise UnicodeDecodeError
        | _ => Raise UnicodeDecodeError
        end
      else if in_range 0xF0 0xF4 b0 then
        match r0 with
        | b1 :: b2 :: b3 :: r3 =>
            let lo := if v0 =? 0xF0 then 0x90 else 0x80 in
            let hi := if v0 =? 0xF4 then 0x8F else 0xBF in
            if in_range lo hi b1 && in_range 0x80 0xBF b2
               && in_range 0x80 0xBF b3 then
              decoded (Z.lor (Z.shiftl (Z.land v0 0x07) 18)
                        (Z.lor (Z.shiftl (cont_bits b1) 12)
                           (Z.lor (Z.shiftl (cont_bits b2) 6) (cont_bits b3))))
                      (utf8_decode r3)
            else Raise UnicodeDecodeError
        | _ => Raise UnicodeDecodeError
        end
      else Raise UnicodeDecodeError
  end.

(** [len(s)] *)
Definition len {A} (l : list A) : Z := Z.of_nat (length l).

(** * src/db/fmt.py *)

Definition OSU_BYTE : Z := 1.
Definition OSU_SHORT : Z := 2.
Definition OSU_INT : Z := 4.
Definition OSU_LONG : Z := 8.
Definition OSU_SINGLE : Z := 4.
Definition OSU_DOUBLE : Z := 8.
Definition OSU_BOOLEAN : Z := 1.
Definition OSU_DATETIME : Z := 8.

(** The [while True] loop of [parse_uleb128], with its two variables. Each
    turn reads one byte ([fileobj.read(1)[0]], an IndexError at the end of
    the file), so the loop is structural in the unread bytes. *)
Fixpoint parse_uleb128_loop (result shift : Z) (f : fileobj)
  : result_of (Z * fileobj) :=
  match f with
  | [] => Raise IndexError
  | b :: f' =>
      let byte := byte_val b in
      let result := Z.lor result (Z.shiftl (Z.land byte 0x7F) shift) in
      if Z.shiftr (Z.land byte 0x80) 7 =? 0 then Ok (result, f')
      else parse_uleb128_loop result (shift + 7) f'
  end.

Definition parse_uleb128 : M Z := parse_uleb128_loop 0 0.

Definition parse_string : M str :=
  let* indicator := read 1 in
  let* o := lift (ord indicator) in
  if o =? 0 then ret []
  else if o =? 11 then
    let* uleb := parse_uleb128 in
    let* payload := read uleb in
    lift (utf8_decode payload)
  else raise ValueError.

Definition get_int (integer : Z) : result_of bytes := struct_pack_I integer.

(** The [while cont_loop] loop of [get_uleb128]. Python integers are
    unbounded and the loop does not end on a negative one, so the loop takes
    fuel: [None] says that the fuel ran out before the loop ended. *)
Fixpoint get_uleb128_loop (fuel : nat) (integer : Z) (result : bytes)
  : option (result_of bytes) :=
  match fuel with
  | O => None
  | S fuel' =>
      let byte := Z.land integer 0x7F in
      let integer := Z.shiftr integer 7 in
      let byte := if integer =? 0 then byte else Z.lor byte 0x80 in
      match bytes_of_int byte with
      | Raise e => Some (Raise e)
      | Ok b =>
          let result := result ++ b in
          if integer =? 0 then Some (Ok result)
          else get_uleb128_loop fuel' integer result
      end
  end.

(** One turn of the loop drops seven bits, so [1 + log2 integer] turns are
    enough for a non-negative integer. *)
Definition get_uleb128 (integer : Z) : option (result_of bytes) :=
  get_uleb128_loop (S (Z.to_nat (Z.log2 integer))) integer [].

Definition get_string (string : str) : option (result_of bytes) :=
  match string with
  | [] => Some (bytes_of_int 0x00)
  | _ =>
      match bytes_of_int 0x0B with
      | Raise e => Some (Raise e)
      | Ok result =>
          match get_uleb128 (len string) with
          | None => None
          | Some (Raise e) => Some (Raise e)
          | Some (Ok u) =>
              let result := result ++ u in
              match utf8_encode string with
              | Raise e => Some (Raise e)
              | Ok p => Some (Ok (result ++ p))
              end
          end
      end
  end.

(** The [type] argument of [read_type] is a Python string; the [if]/[elif]
    chain compares it with the eleven names in this order, and every other
    string reaches the final [else]. *)
Inductive kind :=
| KInt | KString | KByte | KShort | KLong | KSingle | KDouble | KBoolean
| KIntDoublepair | KTimingpoint | KDateTime
| KOther.

Definition kind_of (type : string) : kind :=
  if String.eqb type "Int" then KInt
  else if String.eqb type "String" then KString
  else if String.eqb type "Byte" then KByte
  else if String.eqb type "Short" then KShort
  else if String.eqb type "Long" then KLong
  else if String.eqb type "Single" then KSingle
  else if String.eqb type "Double" then KDouble
  else if String.eqb type "Boolean" then KBoolean
  else if String.eqb type "IntDoublepair" then KIntDoublepair
  else if String.eqb type "Timingpoint" then KTimingpoint
  else if String.eqb type "DateTime" then KDateTime
  else KOther.

(** Python's [None]. *)
Inductive NoneType := PyNone.

(** The type of the value returned for each kind, as the [@overload]
    signatures give it; falling off the end of the function returns [None]. *)
Definition returns (k : kind) : Type :=
  match k with
  | KInt | KShort | KLong | KDateTime => Z
  | KString => str
  | KByte => bytes
  | KSingle | KDouble => pyfloat
  | KBoolean => bool
  | KIntDoublepair => (Z * pyfloat)%type
  | KTimingpoint => (pyfloat * pyfloat * bool)%type
  | KOther => NoneType
  end.

(** The branches of [read_type]. The [except struct.error] handler logs and
    re-raises, so a [struct.error] goes on to the caller as it is. *)
Definition read_kind (k : kind) : M (returns k) :=
  match k return M (returns k) with
  | KInt =>
      let* bs := read OSU_INT in
      ret (int_from_bytes_little bs)
  | KString =>
      let* s := parse_string in
      ret s
  | KByte =>
      let* bs := read OSU_BYTE in
      ret bs
  | KShort =>
      let* bs := read OSU_SHORT in
      ret (int_from_bytes_little bs)
  | KLong =>
      let* bs := read OSU_LONG in
      ret (int_from_bytes_little bs)
  | KSingle =>
      let* bs := read OSU_SINGLE in
      lift (struct_unpack_f bs)
  | KDouble =>
      let* bs := read OSU_DOUBLE in
      lift (struct_unpack_d bs)
  | KBoolean =>
      let* bs := read OSU_BOOLEAN in
      ret (negb (bytes_eqb bs [x00]))
  | KIntDoublepair =>
      let* oxo8 := read OSU_BYTE in
      let* bs1 := read OSU_INT in
      let i := int_from_bytes_little bs1 in
      let* oxob := read OSU_BYTE in
      let* bs2 := read OSU_DOUBLE in
      let* d := lift (struct_unpack_d bs2) in
      ret (i, d)
  | KTimingpoint =>
      let* bs1 := read OSU_DOUBLE in
      let* bpm := lift (struct_unpack_d bs1) in
      let* bs2 := read OSU_DOUBLE in
      let* offset := lift (struct_unpack_d bs2) in
      let* bs3 := read OSU_BOOLEAN in
      let uninherited := negb (bytes_eqb bs3 [x00]) in
      ret (bpm, offset, uninherited)
  | KDateTime =>
      let* bs := read OSU_DATETIME in
      ret (int_from_bytes_little bs)
  | KOther =>
      (* log.warn(...), then the function ends *)
      ret PyNone
  end.

Definition read_type (type : string) : M (returns (kind_of type)) :=
  read_kind (kind_of type).

Definition read_batch (cnt : Z) (type : string)
  : M (list (returns (kind_of type))) :=
  for_range cnt (read_type type).

(** * src/db/model.py *)

Record Difficulty := {
  path : str;
  name : str;
  artist : str;
  mapper : str;
  difficulty : str;
  ar : pyfloat;
  cs : pyfloat;
  hp : pyfloat;
  od : pyfloat;
  hash : str;
  api_beatmap_id : Z;
  beatmap_id : Z;
  beatmapset_id : Z;
  timing : list (pyfloat * pyfloat * bool)
}.

Record Song := { difficulties : list Difficulty }.

(** [Songs]: the list of songs and the [bid_mapping] dictionary. *)
Record Songs := {
  songs : list Song;
  bid_mapping : gmap Z Difficulty
}.

(** [Songs.add_song]: the song is appended (an empty one is only logged). *)
Definition add_song (self : Songs) (song : Song) : Songs :=
  {| songs := songs self ++ [song]; bid_mapping := bid_mapping self |}.

(** The inner loop of [Songs.get_song]: the first difficulty of the song
    with the hash. *)
Fixpoint get_song_diff (song_hash : str) (diffs : list Difficulty)
  : option Difficulty :=
  match diffs with
  | [] => None
  | diff :: rest =>
      if decide (hash diff = song_hash) then Some diff
      else get_song_diff song_hash rest
  end.

(** The outer loop of [Songs.get_song]. *)
Fixpoint get_song_loop (song_hash : str) (l : list Song)
  : option (Song * Difficulty) :=
  match l with
  | [] => None
  | song :: rest =>
      match get_song_diff song_hash (difficulties song) with
      | Some diff => Some (song, diff)
      | None => get_song_loop song_hash rest
      end
  end.

(** [Songs.get_song]: the pair of the song and the difficulty, or [None]. *)
Definition get_song (self : Songs) (song_hash : str)
  : option (Song * Difficulty) :=
  get_song_loop song_hash (songs self).

(** * src/db/parser.py *)

(** [a, b, c = l]: a ValueError unless [l] has exactly that many items. *)
Definition unpack3 {A} (l : list A) : M (A * A * A) :=
  match l with
  | [a; b; c] => ret (a, b, c)
  | _ => raise ValueError
  end.

Definition unpack4 {A} (l : list A) : M (A * A * A * A) :=
  match l with
  | [a; b; c; d] => ret (a, b, c, d)
  | _ => raise ValueError
  end.

Definition unpack5 {A} (l : list A) : M (A * A * A * A * A) :=
  match l with
  | [a; b; c; d; e] => ret (a, b, c, d, e)
  | _ => raise ValueError
  end.

(** The local variables of [parse_beatmap], which it writes to the log
    before it builds the [Difficulty] from some of them. *)
Record locals := {
  v_artist : str;
  v_artist_u : str;
  v_song : str;
  v_song_u : str;
  v_creator : str;
  v_difficulty : str;
  v_audio_file : str;
  v_md5 : str;
  v_osu_file : str;
  v_ranked_status : bytes;
  v_last_modified : Z;
  v_num_hitcircles : Z;
  v_num_sliders : Z;
  v_num_spinners : Z;
  v_ar : pyfloat;
  v_cs : pyfloat;
  v_hp : pyfloat;
  v_od : pyfloat;
  v_slider_velocity : pyfloat;
  v_stars_standard : list (Z * pyfloat);
  v_stars_taiko : list (Z * pyfloat);
  v_stars_ctb : list (Z * pyfloat);
  v_stars_mania : list (Z * pyfloat);
  v_drain_time : Z;
  v_total_time : Z;
  v_preview_time : Z;
  v_num_timingpoints : Z;
  v_timingpoints : list (pyfloat * pyfloat * bool);
  v_beatmap_id : Z;
  v_beatmap_set_id : Z;
  v_thread_id : Z;
  v_grade_standard : bytes;
  v_grade_taiko : bytes;
  v_grade_ctb : bytes;
  v_grade_mania : bytes;
  v_local_offset : Z;
  v_stack_leniency : pyfloat;
  v_gameplay_mode : bytes;
  v_source : str;
  v_tags : str;
  v_online_offset : Z;
  v_font : str;
  v_unplayed : bool;
  v_last_played : Z;
  v_is_osz2 : bool;
  v_beatmap_folder : str;
  v_last_checked : Z;
  v_ignore_sounds : bool;
  v_ignore_skin : bool;
  v_disable_storyboard : bool;
  v_disable_video : bool;
  v_visual_override : bool;
  v_unknown_int_modified : Z;
  v_mania_scroll_speed : bytes
}.

(** The nested function [read_SR] of [parse_beatmap]. *)
Definition read_SR : M (list (Z * pyfloat)) :=
  let* num_idp := read_type "Int" in
  let* idps := for_range num_idp (read_type "IntDoublepair") in
  ret idps.

(** Lines 171-175 of [parse_beatmap]: the count, then that many timing
    points. *)
Definition read_timingpoints : M (Z * list (pyfloat * pyfloat * bool)) :=
  let* num_timingpoints := read_type "Int" in
  let* timingpoints := for_range num_timingpoints (read_type "Timingpoint") in
  ret (num_timingpoints, timingpoints).

(** The reads of [parse_beatmap], statement by statement. [bm_diff_types] is
    [["Single"] * 4] whatever the version of the database, and nothing is
    read between the five Boolean flags and [unknown_int_modified]. *)
Definition parse_beatmap_locals : M locals :=
  let* artist := read_type "String" in
  let* artist_u := read_type "String" in
  let* song := read_type "String" in
  let* song_u := read_type "String" in
  let* creator := read_type "String" in
  let* difficulty := read_type "String" in
  let* audio_file := read_type "String" in
  let* md5 := read_type "String" in
  let* osu_file := read_type "String" in
  let* ranked_status := read_type "Byte" in
  let* last_modified := read_type "Long" in
  let* num_hitcircles := read_type "Short" in
  let* num_sliders := read_type "Short" in
  let* num_spinners := read_type "Short" in
  let* diffs := for_range 4 (read_type "Single") in
  let* (ar, cs, hp, od) := unpack4 diffs in
  let* slider_velocity := read_type "Double" in
  let* stars := for_range 4 read_SR in
  let* (stars_standard, stars_taiko, stars_ctb, stars_mania) :=
    unpack4 stars in
  let* drain_time := read_type "Int" in
  let* total_time := read_type "Int" in
  let* preview_time := read_type "Int" in
  let* (num_timingpoints, timingpoints) := read_timingpoints in
  let* ids := read_batch 3 "Int" in
  let* (beatmap_id, beatmap_set_id, thread_id) := unpack3 ids in
  let* grades := read_batch 4 "Byte" in
  let* (grade_standard, grade_taiko, grade_ctb, grade_mania) :=
    unpack4 grades in
  let* local_offset := read_type "Short" in
  let* stack_leniency := read_type "Single" in
  let* gameplay_mode := read_type "Byte" in
  let* source := read_type "String" in
  let* tags := read_type "String" in
  let* online_offset := read_type "Short" in
  let* font := read_type "String" in
  let* unplayed := read_type "Boolean" in
  let* last_played := read_type "Long" in
  let* is_osz2 := read_type "Boolean" in
  let* beatmap_folder := read_type "String" in
  let* last_checked := read_type "Long" in
  let* flags := read_batch 5 "Boolean" in
  let* (ignore_sounds, ignore_skin, disable_storyboard, disable_video,
         visual_override) := unpack5 flags in
  let* unknown_int_modified := read_type "Int" in
  let* mania_scroll_speed := read_type "Byte" in
  ret {| v_artist := artist; v_artist_u := artist_u; v_song := song;
         v_song_u := song_u; v_creator := creator;
         v_difficulty := difficulty; v_audio_file := audio_file;
         v_md5 := md5; v_osu_file := osu_file;
         v_ranked_status := ranked_status;
         v_last_modified := last_modified;
         v_num_hitcircles := num_hitcircles; v_num_sliders := num_sliders;
         v_num_spinners := num_spinners;
         v_ar := ar; v_cs := cs; v_hp := hp; v_od := od;
         v_slider_velocity := slider_velocity;
         v_stars_standard := stars_standard; v_stars_taiko := stars_taiko;
         v_stars_ctb := stars_ctb; v_stars_mania := stars_mania;
         v_drain_time := drain_time; v_total_time := total_time;
         v_preview_time := preview_time;
         v_num_timingpoints := num_timingpoints;
         v_timingpoints := timingpoints;
         v_beatmap_id := beatmap_id; v_beatmap_set_id := beatmap_set_id;
         v_thread_id := thread_id;
         v_grade_standard := grade_standard; v_grade_taiko := grade_taiko;
         v_grade_ctb := grade_ctb; v_grade_mania := grade_mania;
         v_local_offset := local_offset; v_stack_leniency := stack_leniency;
         v_gameplay_mode := gameplay_mode; v_source := source;
         v_tags := tags; v_online_offset := online_offset; v_font := font;
         v_unplayed := unplayed; v_last_played := last_played;
         v_is_osz2 := is_osz2; v_beatmap_folder := beatmap_folder;
         v_last_checked := last_checked;
         v_ignore_sounds := ignore_sounds; v_ignore_skin := ignore_skin;
         v_disable_storyboard := disable_storyboard;
         v_disable_video := disable_video;
         v_visual_override := visual_override;
         v_unknown_int_modified := unknown_int_modified;
         v_mania_scroll_speed := mania_scroll_speed |}.

(** [Difficulty(osu_file, song, artist, creator, difficulty, ar, cs, hp, od,
    md5, beatmap_id, beatmap_id, beatmap_set_id, timingpoints)] *)
Definition make_difficulty (v : locals) : Difficulty :=
  {| path := v_osu_file v;
     name := v_song v;
     artist := v_artist v;
     mapper := v_creator v;
     difficulty := v_difficulty v;
     ar := v_ar v;
     cs := v_cs v;
     hp := v_hp v;
     od := v_od v;
     hash := v_md5 v;
     api_beatmap_id := v_beatmap_id v;
     beatmap_id := v_beatmap_id v;
     beatmapset_id := v_beatmap_set_id v;
     timing := v_timingpoints v |}.

Definition parse_beatmap : M Difficulty :=
  let* v := parse_beatmap_locals in
  ret (make_difficulty v).

(** [mapsets.setdefault(k, []).append(x)] on a dictionary kept in insertion
    order. *)
Fixpoint setdefault_append (k : Z) (x : Difficulty)
    (mapsets : list (Z * list Difficulty)) : list (Z * list Difficulty) :=
  match mapsets with
  | [] => [(k, [x])]
  | (k', v) :: rest =>
      if k' =? k then (k', v ++ [x]) :: rest
      else (k', v) :: setdefault_append k x rest
  end.

(** The first [for] loop of [load_db]: one turn. *)
Definition index_step (st : gmap Z Difficulty * list (Z * list Difficulty))
    (map : Difficulty) : gmap Z Difficulty * list (Z * list Difficulty) :=
  (<[beatmap_id map := map]> (fst st),
   setdefault_append (beatmapset_id map) map (snd st)).

(** The part of [load_db] after the reads: the two [for] loops. *)
Definition assemble (beatmaps : list Difficulty) : Songs :=
  let st := fold_left index_step beatmaps (∅, []) in
  fold_left
    (fun (self : Songs) (mapset : Z * list Difficulty) =>
       add_song self {| difficulties := snd mapset |})
    (snd st)
    {| songs := []; bid_mapping := fst st |}.

(** The header of the database, then the beatmaps. *)
Definition read_db : M (Z * list Difficulty) :=
  let* version := read_type "Int" in
  let* num_folders := read_type "Int" in
  let* unlocked := read_type "Boolean" in
  let* unlock_time := read_type "DateTime" in
  let* player_name := read_type "String" in
  let* num_maps := read_type "Int" in
  let* beatmaps := for_range num_maps parse_beatmap in
  ret (version, beatmaps).

(** [load_db], from the content of the file at [path]. *)
Definition load_db (file : bytes) : result_of Songs :=
  match read_db file with
  | Ok ((_, beatmaps), _) => Ok (assemble beatmaps)
  | Raise e => Raise e
  end.

(** * Sample files *)

(** A record in the layout that the format comment of [parser.py] gives for
    a current database: all strings empty but the title, ranked status 4,
    hit-object counts 1, 2 and 3, last modification time [0x1817161514131211],
    no star ratings, and the given timing points, beatmap id and set id. *)
Definition sample_record (title : bytes) (timing_bytes : bytes)
    (timing_count bid sid : Z) : bytes :=
  [x00; x00] ++ title ++ [x00; x00; x00; x00; x00; x00]
  ++ [x04]
  ++ int_to_bytes_little 2 1 ++ int_to_bytes_little 2 2
  ++ int_to_bytes_little 2 3
  ++ int_to_bytes_little 8 0x1817161514131211
  ++ repeat x00 16                      (* ar, cs, hp, od *)
  ++ repeat x00 8                       (* slider velocity *)
  ++ repeat x00 16                      (* four empty star rating tables *)
  ++ repeat x00 12                      (* drain, total, preview time *)
  ++ int_to_bytes_little 4 timing_count ++ timing_bytes
  ++ int_to_bytes_little 4 bid ++ int_to_bytes_little 4 sid
  ++ repeat x00 4                       (* thread id *)
  ++ repeat x00 4                       (* grades *)
  ++ repeat x00 2 ++ repeat x00 4 ++ [x00]
  ++ [x00; x00] ++ repeat x00 2 ++ [x00]
  ++ [x01] ++ repeat x00 8 ++ [x00] ++ [x00] ++ repeat x00 8
  ++ repeat x00 5
  ++ repeat x00 4 ++ [x00].

(** One timing point: 500 ms per beat ([0x407F400000000000]), offset 0,
    uninherited. *)
Definition sample_timingpoint : bytes :=
  int_to_bytes_little 8 0x407F400000000000 ++ repeat x00 8 ++ [x01].

(** The header of a database: version, no folders, unlocked, player "p". *)
Definition sample_header (version num_maps : Z) : bytes :=
  int_to_bytes_little 4 version ++ repeat x00 4 ++ [x01] ++ repeat x00 8
  ++ [x0b; x01; x70] ++ int_to_bytes_little 4 num_maps.

(** The record that the examples decode: title "A", one timing point,
    beatmap id 42 in set 7. *)
Definition sample_beatmap : bytes :=
  sample_record [x0b; x01; x41] sample_timingpoint 1 42 7.

(** The [Difficulty] that [parse_beatmap] returns for [sample_beatmap]. *)
Definition sample_difficulty (title : str) (bid sid : Z)
    (tps : list (pyfloat * pyfloat * bool)) : Difficulty :=
  {| path := []; name := title; artist := []; mapper := []; difficulty := [];
     ar := Float32 0; cs := Float32 0; hp := Float32 0; od := Float32 0;
     hash := []; api_beatmap_id := bid; beatmap_id := bid;
     beatmapset_id := sid; timing := tps |}.

(** A record in the layout of a database older than 20140609: as
    [sample_record] with no timing point, but approach rate 5, circle size
    4, HP drain 3 and overall difficulty 6 are one Byte each, the slider
    velocity is 1.0 ([0x3FF0000000000000]), and a Short (here 0x0102) stands
    between the five Boolean flags and the trailing Int. *)
Definition legacy_record (bid sid : Z) : bytes :=
  repeat x00 9
  ++ [x04]
  ++ int_to_bytes_little 2 1 ++ int_to_bytes_little 2 2
  ++ int_to_bytes_little 2 3
  ++ int_to_bytes_little 8 0x1817161514131211
  ++ [x05; x04; x03; x06]               (* ar, cs, hp, od *)
  ++ int_to_bytes_little 8 0x3FF0000000000000
  ++ repeat x00 16                      (* four empty star rating tables *)
  ++ repeat x00 12                      (* drain, total, preview time *)
  ++ repeat x00 4                       (* no timing point *)
  ++ int_to_bytes_little 4 bid ++ int_to_bytes_little 4 sid
  ++ repeat x00 4                       (* thread id *)
  ++ repeat x00 4                       (* grades *)
  ++ repeat x00 2 ++ repeat x00 4 ++ [x00]
  ++ [x00; x00] ++ repeat x00 2 ++ [x00]
  ++ [x01] ++ repeat x00 8 ++ [x00] ++ [x00] ++ repeat x00 8
  ++ repeat x00 5
  ++ int_to_bytes_little 2 0x0102        (* the Short of the old layout *)
  ++ repeat x00 4 ++ [x00].

(** * Predicates of the statements *)

(** A string of ASCII characters: the strings whose UTF-8 encoding has one
    byte for each character. *)
Definition is_ascii (s : str) : Prop := Forall (fun c => 0 <= c < 128) s.

(** The names that the [if]/[elif] chain of [read_type] knows. *)
Definition documented_kinds : list string :=
  ["Int"; "String"; "Byte"; "Short"; "Long"; "Single"; "Double"; "Boolean";
   "IntDoublepair"; "Timingpoint"; "DateTime"]%string.

(** The bytes that a successful computation took from the file. *)
Definition consumed {A} (m : M A) (f : fileobj) : option Z :=
  match m f with
  | Ok (_, f') => Some (len f - len f')
  | Raise _ => None
  end.

(** A timing point as the format comment of [parser.py] describes its 17
    bytes: a Double, a Double, a Boolean. *)
Definition timingpoint_of (entry : bytes) : pyfloat * pyfloat * bool :=
  (Float64 (int_from_bytes_little (take 8 entry)),
   Float64 (int_from_bytes_little (take 8 (drop 8 entry))),
   negb (bytes_eqb (take 1 (drop 16 entry)) [x00])).

(** The first [n] entries of 17 bytes of a byte string. *)
Fixpoint entries17 (n : nat) (s : bytes) : list bytes :=
  match n with
  | O => []
  | S n' => take 17 s :: entries17 n' (drop 17 s)
  end.

(** The records reachable from the songs of a catalog, in order. *)
Definition reachable (catalog : Songs) : list Difficulty :=
  concat (map difficulties (songs catalog)).

(** The records held by a [mapsets] dictionary, in order. *)
Definition grouped (mapsets : list (Z * list Difficulty)) : list Difficulty :=
  concat (map snd mapsets).

(** [d] is the last record of [beatmaps] that carries the id [k]. *)
Definition last_with_id (beatmaps : list Difficulty) (k : Z) (d : Difficulty)
  : Prop :=
  exists l1 l2,
    beatmaps = l1 ++ d :: l2 /\ beatmap_id d = k /\
    Forall (fun d' => beatmap_id d' <> k) l2.

(** A database of two records that carry the same beatmap id 42, with the
    titles "A" and "B". *)
Definition duplicate_id_file : bytes :=
  sample_header 20150203 2
  ++ sample_record [x0b; x01; x41] sample_timingpoint 1 42 7
  ++ sample_record [x0b; x01; x42] [] 0 42 7.

(** A database of one record. *)
Definition sample_file : bytes := sample_header 20150203 1 ++ sample_beatmap.

(** What [parse_beatmap] makes of [legacy_record 42 7]. *)
Definition legacy_misread : Difficulty :=
  {| path := []; name := []; artist := []; mapper := []; difficulty := [];
     ar := Float32 0x06030405; cs := Float32 0;
     hp := Float32 0x3FF00000; od := Float32 0;
     hash := []; api_beatmap_id := 0; beatmap_id := 0;
     beatmapset_id := 0; timing := [] |}.

(** The number of bytes that each branch of [read_type] asks of [fobj.read],
    for the kinds whose branch asks a fixed number. *)
Definition declared_width (k : kind) : option Z :=
  match k with
  | KInt => Some OSU_INT
  | KByte => Some OSU_BYTE
  | KShort => Some OSU_SHORT
  | KLong => Some OSU_LONG
  | KSingle => Some OSU_SINGLE
  | KDouble => Some OSU_DOUBLE
  | KBoolean => Some OSU_BOOLEAN
  | KIntDoublepair => Some (OSU_BYTE + OSU_INT + OSU_BYTE + OSU_DOUBLE)
  | KTimingpoint => Some (OSU_DOUBLE + OSU_DOUBLE + OSU_BOOLEAN)
  | KDateTime => Some OSU_DATETIME
  | KString | KOther => None
  end.

(** The number that a sequence of ULEB128 bytes stands for: seven bits a
    byte, the low ones first. *)
Fixpoint uleb128_value (bs : bytes) : Z :=
  match bs with
  | [] => 0
  | b :: bs' => byte_val b mod 128 + 128 * uleb128_value bs'
  end.

(** A byte with the continuation bit. *)
Definition continues (b : byte) : Prop := 128 <= byte_val b.

(** A computation that only reads forward: the file it leaves is a suffix of
    the file it was given. *)
Definition advances {A} (m : M A) : Prop :=
  forall f x f', m f = Ok (x, f') -> f' `suffix_of` f.

(** The records of a list that belong to the beatmap set [k], in order. *)
Definition group_of (k : Z) (beatmaps : list Difficulty) : list Difficulty :=
  filter (fun d => beatmapset_id d = k) beatmaps.

(** The numbers of a list in the order in which they first occur. *)
Fixpoint first_seen (l : list Z) : list Z :=
  match l with
  | [] => []
  | x :: r => x :: filter (fun y => y <> x) (first_seen r)
  end.

Create HintDb advance.

(** * Proof steps *)

(** One step through the reads of a computation that returned. *)
Ltac bind_step H :=
  match type of H with
  | match ?x with Ok _ => _ | Raise _ => _ end = Ok _ =>
      let E := fresh "E" in
      destruct x as [[? ?]|?] eqn:E; [|discriminate H]
  | match ?p with (_, _) => _ end _ = Ok _ => destruct p
  end.

(** * Properties *)

(** ** Bytes and bits *)

Lemma byte_val_range (b : byte) : 0 <= byte_val b < 256.
Proof.
  unfold byte_val. pose proof (Byte.to_N_bounded b). lia.
Qed.

Lemma bytes_of_int_ok (n : Z) :
  0 <= n < 256 -> exists b, bytes_of_int n = Ok [b] /\ byte_val b = n.
Proof.
  intros Hn. unfold bytes_of_int.
  replace ((0 <=? n) && (n <? 256)) with true by (symmetry; apply andb_true_iff; lia).
  destruct (Byte.of_N (Z.to_N n)) as [b|] eqn:Hb.
  - exists b. split; [reflexivity|].
    unfold byte_val. apply Byte.to_of_N in Hb. rewrite Hb. lia.
  - apply Byte.of_N_None_iff in Hb. lia.
Qed.

Lemma low7_range (n : Z) : 0 <= Z.land n 0x7F < 128.
Proof.
  change 0x7F with (Z.ones 7). rewrite Z.land_ones by lia.
  apply Z.mod_pos_bound. reflexivity.
Qed.

Lemma low7_flagged_range (n : Z) : 0 <= Z.lor (Z.land n 0x7F) 0x80 < 256.
Proof.
  pose proof (low7_range n) as H.
  split; [apply Z.lor_nonneg; lia|].
  change 256 with (2 ^ 8). apply Z.log2_lt_pow2.
  - assert (0 <= Z.lor (Z.land n 0x7F) 0x80) by (apply Z.lor_nonneg; lia).
    assert (Z.lor (Z.land n 0x7F) 0x80 <> 0).
    { intros E. apply Z.lor_eq_0_iff in E. lia. }
    lia.
  - rewrite Z.log2_lor by lia.
    assert (Z.log2 (Z.land n 0x7F) < 7).
    { destruct (Z.eq_dec (Z.land n 0x7F) 0) as [->|]; [reflexivity|].
      apply Z.log2_lt_pow2; lia. }
    change (Z.log2 0x80) with 7. lia.
Qed.

(** The low seven bits and the rest make the number again. *)
Lemma split7 (n : Z) :
  Z.lor (Z.land n 0x7F) (Z.shiftl (Z.shiftr n 7) 7) = n.
Proof.
  apply Z.bits_inj'. intros i Hi.
  rewrite Z.lor_spec, Z.land_spec.
  change 0x7F with (Z.ones 7).
  destruct (Z.ltb_spec i 7).
  - rewrite Z.ones_spec_low by lia.
    rewrite Z.shiftl_spec_low by lia.
    rewrite andb_true_r, orb_false_r. reflexivity.
  - rewrite Z.ones_spec_high by lia.
    rewrite Z.shiftl_spec by lia.
    rewrite Z.shiftr_spec by lia.
    rewrite andb_false_r. simpl. f_equal. lia.
Qed.

Lemma split7_shifted (n shift : Z) :
  0 <= shift ->
  Z.lor (Z.shiftl (Z.land n 0x7F) shift) (Z.shiftl (Z.shiftr n 7) (shift + 7))
  = Z.shiftl n shift.
Proof.
  intros Hs.
  replace (shift + 7) with (7 + shift) by lia.
  rewrite <- Z.shiftl_shiftl by lia.
  rewrite <- Z.shiftl_lor. rewrite split7. reflexivity.
Qed.

Lemma low7_of_flagged (n : Z) :
  Z.land (Z.lor (Z.land n 0x7F) 0x80) 0x7F = Z.land n 0x7F.
Proof.
  rewrite Z.land_lor_distr_l. rewrite <- Z.land_assoc.
  change (Z.land 0x7F 0x7F) with 0x7F. change (Z.land 0x80 0x7F) with 0.
  apply Z.lor_0_r.
Qed.

Lemma flag_of_flagged (n : Z) :
  Z.shiftr (Z.land (Z.lor (Z.land n 0x7F) 0x80) 0x80) 7 = 1.
Proof.
  rewrite Z.land_lor_distr_l. rewrite <- Z.land_assoc.
  change (Z.land 0x7F 0x80) with 0. rewrite Z.land_0_r. reflexivity.
Qed.

Lemma flag_of_low7 (n : Z) :
  Z.shiftr (Z.land (Z.land n 0x7F) 0x80) 7 = 0.
Proof.
  rewrite <- Z.land_assoc. change (Z.land 0x7F 0x80) with 0.
  rewrite Z.land_0_r. reflexivity.
Qed.

(** ** ULEB128 *)

(** The encoder loop ends within [1 + log2 integer] turns on a non-negative
    integer, and the decoder loop reads back what it wrote, whatever the
    decoder's variables were before. *)
Lemma get_uleb128_loop_parse (fuel : nat) :
  forall (n : Z) (acc : bytes),
    0 <= n -> Z.log2 n < Z.of_nat fuel ->
    exists bs,
      get_uleb128_loop fuel n acc = Some (Ok (acc ++ bs)) /\
      bs <> [] /\
      forall (r shift : Z) (rest : fileobj),
        0 <= shift ->
        parse_uleb128_loop r shift (bs ++ rest)
        = Ok (Z.lor r (Z.shiftl n shift), rest).
Proof.
  induction fuel as [|fuel IH]; intros n acc Hn Hfuel.
  - pose proof (Z.log2_nonneg n). lia.
  - cbn [get_uleb128_loop].
    destruct (Z.eqb_spec (Z.shiftr n 7) 0) as [Hz|Hnz].
    + destruct (bytes_of_int_ok (Z.land n 0x7F)) as (b & Hb & Hv).
      { pose proof (low7_range n). lia. }
      rewrite Hb. exists [b]. split; [reflexivity|]. split; [discriminate|].
      intros r shift rest Hs. cbn [app parse_uleb128_loop].
      rewrite Hv, flag_of_low7. cbn [Z.eqb].
      pose proof (split7 n) as E. rewrite Hz in E.
      rewrite Z.shiftl_0_l, Z.lor_0_r in E. rewrite !E. reflexivity.
    + destruct (bytes_of_int_ok (Z.lor (Z.land n 0x7F) 0x80)) as (b & Hb & Hv).
      { apply low7_flagged_range. }
      rewrite Hb.
      assert (Hn7 : 0 <= Z.shiftr n 7) by (apply Z.shiftr_nonneg; lia).
      assert (Hpos : 0 < n).
      { destruct (Z.eq_dec n 0) as [->|]; [|lia]. exfalso. apply Hnz. reflexivity. }
      destruct (IH (Z.shiftr n 7) (acc ++ [b]) Hn7) as (bs & Hloop & _ & Hparse).
      { rewrite Z.log2_shiftr by lia.
        assert (7 <= Z.log2 n).
        { apply Z.log2_le_pow2; [lia|].
          destruct (Z.lt_ge_cases n (2 ^ 7)) as [Hlt|]; [|lia].
          exfalso. apply Hnz. apply Z.shiftr_eq_0; [lia|].
          apply Z.log2_lt_pow2; lia. }
        lia. }
      exists (b :: bs). split; [|split; [discriminate|]].
      * rewrite Hloop. rewrite <- app_assoc. reflexivity.
      * intros r shift rest Hs. cbn [app parse_uleb128_loop].
        rewrite Hv, flag_of_flagged, low7_of_flagged. cbn [Z.eqb].
        rewrite Hparse by lia.
        rewrite <- Z.lor_assoc, split7_shifted by lia. reflexivity.
Qed.

(** On a negative integer the encoder loop never ends: no fuel is enough. *)
Lemma get_uleb128_loop_negative (fuel : nat) :
  forall (n : Z) (acc : bytes), n < 0 -> get_uleb128_loop fuel n acc = None.
Proof.
  induction fuel as [|fuel IH]; intros n acc Hn; [reflexivity|].
  cbn [get_uleb128_loop].
  assert (Hs : Z.shiftr n 7 < 0) by (apply Z.shiftr_neg; lia).
  destruct (Z.eqb_spec (Z.shiftr n 7) 0) as [Hz|_]; [lia|].
  destruct (bytes_of_int_ok (Z.lor (Z.land n 0x7F) 0x80)) as (b & Hb & _).
  { apply low7_flagged_range. }
  rewrite Hb. apply IH. exact Hs.
Qed.

(** C7. For every non-negative integer [n], zero included, [get_uleb128 n]
    returns a byte string, and [parse_uleb128] on a file that starts with
    that byte string returns [n] and leaves the file just after it. *)
Theorem uleb128_roundtrip (n : Z) :
  0 <= n ->
  exists bs,
    get_uleb128 n = Some (Ok bs) /\
    forall rest, parse_uleb128 (bs ++ rest) = Ok (n, rest).
Proof.
  intros Hn. unfold get_uleb128, parse_uleb128.
  destruct (get_uleb128_loop_parse (S (Z.to_nat (Z.log2 n))) n [] Hn)
    as (bs & Hloop & _ & Hparse).
  { pose proof (Z.log2_nonneg n). lia. }
  exists bs. split; [exact Hloop|].
  intros rest. rewrite Hparse by lia.
  rewrite Z.shiftl_0_r, Z.lor_0_l. reflexivity.
Qed.

Lemma uleb128_roundtrip_witness :
  exists bs,
    get_uleb128 300 = Some (Ok bs) /\
    forall rest, parse_uleb128 (bs ++ rest) = Ok (300, rest).
Proof. apply (uleb128_roundtrip 300). lia. Defined.

Lemma parse_uleb128_loop_nonneg (f : fileobj) :
  forall r shift n f',
    0 <= r -> 0 <= shift ->
    parse_uleb128_loop r shift f = Ok (n, f') -> 0 <= n.
Proof.
  induction f as [|b f IH]; intros r shift n f' Hr Hs H; [discriminate|].
  cbn [parse_uleb128_loop] in H.
  assert (Hacc : 0 <= Z.lor r (Z.shiftl (Z.land (byte_val b) 0x7F) shift)).
  { apply Z.lor_nonneg. split; [lia|]. apply Z.shiftl_nonneg.
    pose proof (low7_range (byte_val b)). lia. }
  destruct (Z.shiftr (Z.land (byte_val b) 0x80) 7 =? 0).
  - inversion H; subst. exact Hacc.
  - eapply IH; [exact Hacc| |exact H]. lia.
Qed.

Lemma parse_uleb128_nonneg (f f' : fileobj) (n : Z) :
  parse_uleb128 f = Ok (n, f') -> 0 <= n.
Proof.
  unfold parse_uleb128. apply parse_uleb128_loop_nonneg; lia.
Qed.

(** ** Strings *)

Lemma read_nonneg (n : Z) (f : fileobj) :
  0 <= n < 2 ^ 63 ->
  read n f = Ok (take (Z.to_nat n) f, drop (Z.to_nat n) f).
Proof.
  intros Hn. unfold read.
  destruct (Z.ltb_spec n 0); [lia|].
  destruct (Z.ltb_spec n (2 ^ 63)); [reflexivity|lia].
Qed.

(** A request that the file can serve. *)
Lemma read_present (n : Z) (f : fileobj) :
  0 <= n <= len f ->
  read n f = Ok (take (Z.to_nat n) f, drop (Z.to_nat n) f).
Proof.
  intros Hn. unfold read, len in *.
  destruct (Z.ltb_spec n 0); [lia|].
  destruct (Z.leb_spec n (Z.of_nat (length f))); [|lia].
  rewrite orb_true_r. reflexivity.
Qed.

(** On the files there are, of fewer than [2^63] bytes, [read] is
    [fobj.read]: everything left for a negative request, OverflowError for a
    request that does not fit the index type, and the bytes asked for, or
    the ones left, otherwise. *)
Lemma read_as_python (n : Z) (f : fileobj) :
  len f < 2 ^ 63 ->
  read n f
  = if n <? 0 then Ok (f, [])
    else if 2 ^ 63 <=? n then Raise OverflowError
    else Ok (take (Z.to_nat n) f, drop (Z.to_nat n) f).
Proof.
  intros Hf. unfold read, len in *.
  destruct (Z.ltb_spec n 0); [reflexivity|].
  destruct (Z.ltb_spec n (2 ^ 63)), (Z.leb_spec (2 ^ 63) n); try lia;
    [reflexivity|].
  destruct (Z.leb_spec n (Z.of_nat (length f))); [lia|reflexivity].
Qed.


(** [parse_string] on a file that is not at its end: the three branches. *)
Lemma parse_string_cons (b : byte) (f : fileobj) :
  parse_string (b :: f)
  = if byte_val b =? 0 then Ok ([], f)
    else if byte_val b =? 11 then
      match parse_uleb128 f with
      | Ok (n, f') =>
          match read n f' with
          | Ok (payload, f'') =>
              match utf8_decode payload with
              | Ok s => Ok (s, f'')
              | Raise e => Raise e
              end
          | Raise e => Raise e
          end
      | Raise e => Raise e
      end
    else Raise ValueError.
Proof.
  unfold parse_string, bind.
  change (read 1 (b :: f)) with (Ok ([b], f)). cbv beta iota.
  change (lift (ord [b]) f) with (Ok (byte_val b, f)). cbv beta iota.
  destruct (byte_val b =? 0); [reflexivity|].
  destruct (byte_val b =? 11); [|reflexivity].
  destruct (parse_uleb128 f) as [[n f']|]; [|reflexivity].
  destruct (read n f') as [[payload f'']|]; [|reflexivity].
  unfold lift. destruct (utf8_decode payload); reflexivity.
Qed.

(** What [parse_string] does once the indicator byte is read and is 11. *)
Lemma parse_string_payload (b : byte) (f f' : fileobj) (n : Z) :
  byte_val b = 11 ->
  parse_uleb128 f = Ok (n, f') ->
  n < 2 ^ 63 \/ n <= len f' ->
  parse_string (b :: f)
  = match utf8_decode (take (Z.to_nat n) f') with
    | Ok s => Ok (s, drop (Z.to_nat n) f')
    | Raise e => Raise e
    end.
Proof.
  intros Hb Hu Hn. rewrite parse_string_cons, Hb, Hu. cbn [Z.eqb].
  pose proof (parse_uleb128_nonneg _ _ _ Hu) as H0.
  destruct Hn as [Hn|Hn];
    [rewrite read_nonneg by lia|rewrite read_present by lia]; reflexivity.
Qed.

(** *** UTF-8: the decoder against the encoder *)

Lemma lor_shiftl_add (m k x : Z) :
  0 <= k -> 0 <= x < 2 ^ k -> Z.lor (Z.shiftl m k) x = m * 2 ^ k + x.
Proof.
  intros Hk Hx.
  assert (H0 : Z.land (Z.shiftl m k) x = 0).
  { rewrite <- (Z.mod_small x (2 ^ k)) by exact Hx.
    rewrite <- Z.land_ones by exact Hk.
    rewrite (Z.land_comm x), Z.land_assoc, Z.land_ones by exact Hk.
    rewrite Z.shiftl_mul_pow2, Z.mod_mul by lia. apply Z.land_0_l. }
  rewrite <- Z.lxor_lor, <- Z.add_nocarry_lxor by exact H0.
  rewrite Z.shiftl_mul_pow2 by exact Hk. reflexivity.
Qed.

Lemma lor_C0 (x : Z) : 0 <= x < 64 -> Z.lor 0xC0 x = 192 + x.
Proof. intros H. change (Z.lor 0xC0 x) with (Z.lor (Z.shiftl 3 6) x). rewrite lor_shiftl_add; lia. Qed.

Lemma lor_80 (x : Z) : 0 <= x < 64 -> Z.lor 0x80 x = 128 + x.
Proof. intros H. change (Z.lor 0x80 x) with (Z.lor (Z.shiftl 2 6) x). rewrite lor_shiftl_add; lia. Qed.

Lemma lor_E0 (x : Z) : 0 <= x < 16 -> Z.lor 0xE0 x = 224 + x.
Proof. intros H. change (Z.lor 0xE0 x) with (Z.lor (Z.shiftl 14 4) x). rewrite lor_shiftl_add; lia. Qed.

Lemma lor_F0 (x : Z) : 0 <= x < 8 -> Z.lor 0xF0 x = 240 + x.
Proof. intros H. change (Z.lor 0xF0 x) with (Z.lor (Z.shiftl 30 3) x). rewrite lor_shiftl_add; lia. Qed.

Lemma land_3F (x : Z) : Z.land x 0x3F = x mod 64.
Proof. change (Z.land x 0x3F) with (Z.land x (Z.ones 6)). rewrite Z.land_ones by lia. reflexivity. Qed.

Lemma land_1F (x : Z) : Z.land x 0x1F = x mod 32.
Proof. change (Z.land x 0x1F) with (Z.land x (Z.ones 5)). rewrite Z.land_ones by lia. reflexivity. Qed.

Lemma land_0F (x : Z) : Z.land x 0x0F = x mod 16.
Proof. change (Z.land x 0x0F) with (Z.land x (Z.ones 4)). rewrite Z.land_ones by lia. reflexivity. Qed.

Lemma land_07 (x : Z) : Z.land x 0x07 = x mod 8.
Proof. change (Z.land x 0x07) with (Z.land x (Z.ones 3)). rewrite Z.land_ones by lia. reflexivity. Qed.

Lemma shiftr_6 (x : Z) : Z.shiftr x 6 = x / 64.
Proof. rewrite Z.shiftr_div_pow2 by lia. reflexivity. Qed.

Lemma shiftr_12 (x : Z) : Z.shiftr x 12 = x / 4096.
Proof. rewrite Z.shiftr_div_pow2 by lia. reflexivity. Qed.

Lemma shiftr_18 (x : Z) : Z.shiftr x 18 = x / 262144.
Proof. rewrite Z.shiftr_div_pow2 by lia. reflexivity. Qed.

(** The code point that the decoder makes of two, three and four bytes. *)
Lemma join2 (a b : Z) :
  0 <= b < 64 -> Z.lor (Z.shiftl a 6) b = a * 64 + b.
Proof. intros H. rewrite lor_shiftl_add; lia. Qed.

Lemma join3 (a b c : Z) :
  0 <= b < 64 -> 0 <= c < 64 ->
  Z.lor (Z.shiftl a 12) (Z.lor (Z.shiftl b 6) c) = a * 4096 + b * 64 + c.
Proof.
  intros Hb Hc. rewrite (join2 b c) by exact Hc.
  rewrite lor_shiftl_add; lia.
Qed.

Lemma join4 (a b c d : Z) :
  0 <= b < 64 -> 0 <= c < 64 -> 0 <= d < 64 ->
  Z.lor (Z.shiftl a 18) (Z.lor (Z.shiftl b 12) (Z.lor (Z.shiftl c 6) d))
  = a * 262144 + b * 4096 + c * 64 + d.
Proof.
  intros Hb Hc Hd. rewrite (join3 b c d) by assumption.
  rewrite lor_shiftl_add; lia.
Qed.

Lemma in_range_spec (lo hi : Z) (b : byte) :
  in_range lo hi b = true <-> lo <= byte_val b <= hi.
Proof.
  unfold in_range. rewrite andb_true_iff, Z.leb_le, Z.leb_le. reflexivity.
Qed.

Lemma in_range_true (lo hi : Z) (b : byte) :
  lo <= byte_val b <= hi -> in_range lo hi b = true.
Proof. apply in_range_spec. Qed.

Lemma in_range_false (lo hi : Z) (b : byte) :
  byte_val b < lo \/ hi < byte_val b -> in_range lo hi b = false.
Proof.
  intros H. destruct (in_range lo hi b) eqn:E; [|reflexivity].
  apply in_range_spec in E. lia.
Qed.

Lemma byte_of_val (b : byte) : byte_of (byte_val b) = b.
Proof.
  unfold byte_of, byte_val. rewrite N2Z.id, Byte.of_to_N. reflexivity.
Qed.

Lemma byte_val_of (n : Z) : 0 <= n < 256 -> byte_val (byte_of n) = n.
Proof.
  intros Hn. unfold byte_of, byte_val.
  destruct (Byte.of_N (Z.to_N n)) as [b|] eqn:Hb.
  - apply Byte.to_of_N in Hb. rewrite Hb. lia.
  - apply Byte.of_N_None_iff in Hb. lia.
Qed.

Ltac euclid := Z.to_euclidean_division_equations; lia.

Ltac decide_tests :=
  repeat match goal with
  | |- context [?a <? ?b] => destruct (Z.ltb_spec a b); try lia
  | |- context [?a <=? ?b] => destruct (Z.leb_spec a b); try lia
  | |- context [?a =? ?b] => destruct (Z.eqb_spec a b); try lia
  end.

(** One decoding step, by the length of the sequence that the lead byte
    announces; the code point is written with arithmetic. *)
Lemma utf8_decode_1 (b0 : byte) (r : bytes) :
  byte_val b0 < 0x80 ->
  utf8_decode (b0 :: r) = decoded (byte_val b0) (utf8_decode r).
Proof.
  intros H. cbn [utf8_decode]. cbv zeta.
  destruct (Z.ltb_spec (byte_val b0) 128); [reflexivity | lia].
Qed.

Lemma utf8_decode_2 (b0 b1 : byte) (r : bytes) :
  0xC2 <= byte_val b0 <= 0xDF -> 0x80 <= byte_val b1 <= 0xBF ->
  utf8_decode (b0 :: b1 :: r)
  = decoded ((byte_val b0 - 192) * 64 + (byte_val b1 - 128)) (utf8_decode r).
Proof.
  intros H0 H1. cbn [utf8_decode]. cbv zeta.
  destruct (Z.ltb_spec (byte_val b0) 128); [lia|].
  rewrite (in_range_true 194 223 b0), (in_range_true 128 191 b1) by lia.
  f_equal. unfold cont_bits. rewrite land_1F, land_3F.
  rewrite join2 by euclid. euclid.
Qed.

Lemma utf8_decode_3 (b0 b1 b2 : byte) (r : bytes) :
  0xE0 <= byte_val b0 <= 0xEF ->
  (if byte_val b0 =? 0xE0 then 0xA0 else 0x80) <= byte_val b1
  <= (if byte_val b0 =? 0xED then 0x9F else 0xBF) ->
  0x80 <= byte_val b2 <= 0xBF ->
  utf8_decode (b0 :: b1 :: b2 :: r)
  = decoded ((byte_val b0 - 224) * 4096 + (byte_val b1 - 128) * 64
             + (byte_val b2 - 128)) (utf8_decode r).
Proof.
  intros H0 H1 H2. cbn [utf8_decode]. cbv zeta.
  destruct (Z.ltb_spec (byte_val b0) 128); [lia|].
  rewrite (in_range_false 194 223 b0), (in_range_true 224 239 b0) by lia.
  rewrite (in_range_true _ _ b1) by exact H1.
  rewrite (in_range_true 128 191 b2) by lia. cbn [andb].
  f_equal. unfold cont_bits. rewrite land_0F, !land_3F.
  assert (128 <= byte_val b1 <= 191) by (revert H1; decide_tests).
  rewrite join3 by euclid. euclid.
Qed.

Lemma utf8_decode_4 (b0 b1 b2 b3 : byte) (r : bytes) :
  0xF0 <= byte_val b0 <= 0xF4 ->
  (if byte_val b0 =? 0xF0 then 0x90 else 0x80) <= byte_val b1
  <= (if byte_val b0 =? 0xF4 then 0x8F else 0xBF) ->
  0x80 <= byte_val b2 <= 0xBF -> 0x80 <= byte_val b3 <= 0xBF ->
  utf8_decode (b0 :: b1 :: b2 :: b3 :: r)
  = decoded ((byte_val b0 - 240) * 262144 + (byte_val b1 - 128) * 4096
             + (byte_val b2 - 128) * 64 + (byte_val b3 - 128))
            (utf8_decode r).
Proof.
  intros H0 H1 H2 H3. cbn [utf8_decode]. cbv zeta.
  destruct (Z.ltb_spec (byte_val b0) 128); [lia|].
  rewrite (in_range_false 194 223 b0), (in_range_false 224 239 b0),
    (in_range_true 240 244 b0) by lia.
  rewrite (in_range_true _ _ b1) by exact H1.
  rewrite (in_range_true 128 191 b2), (in_range_true 128 191 b3) by lia.
  cbn [andb].
  f_equal. unfold cont_bits. rewrite land_07, !land_3F.
  assert (128 <= byte_val b1 <= 191) by (revert H1; decide_tests).
  rewrite join4 by euclid. euclid.
Qed.

(** The encoder on the code point of each kind of sequence gives the bytes
    back. *)
Lemma utf8_encode_char_1 (b0 : byte) :
  byte_val b0 < 0x80 -> utf8_encode_char (byte_val b0) = Ok [b0].
Proof.
  intros H. pose proof (byte_val_range b0). unfold utf8_encode_char.
  decide_tests. rewrite byte_of_val. reflexivity.
Qed.

Lemma utf8_encode_char_2 (b0 b1 : byte) :
  0xC2 <= byte_val b0 <= 0xDF -> 0x80 <= byte_val b1 <= 0xBF ->
  utf8_encode_char ((byte_val b0 - 192) * 64 + (byte_val b1 - 128))
  = Ok [b0; b1].
Proof.
  intros H0 H1. unfold utf8_encode_char.
  set (c := (byte_val b0 - 192) * 64 + (byte_val b1 - 128)).
  assert (Hc : c = (byte_val b0 - 192) * 64 + (byte_val b1 - 128))
    by reflexivity.
  clearbody c. decide_tests.
  rewrite shiftr_6, land_3F, lor_C0, lor_80 by euclid.
  replace (192 + c / 64) with (byte_val b0) by euclid.
  replace (128 + c mod 64) with (byte_val b1) by euclid.
  rewrite !byte_of_val. reflexivity.
Qed.

Lemma utf8_encode_char_3 (b0 b1 b2 : byte) :
  0xE0 <= byte_val b0 <= 0xEF ->
  (if byte_val b0 =? 0xE0 then 0xA0 else 0x80) <= byte_val b1
  <= (if byte_val b0 =? 0xED then 0x9F else 0xBF) ->
  0x80 <= byte_val b2 <= 0xBF ->
  utf8_encode_char ((byte_val b0 - 224) * 4096 + (byte_val b1 - 128) * 64
                    + (byte_val b2 - 128))
  = Ok [b0; b1; b2].
Proof.
  intros H0 H1 H2. unfold utf8_encode_char.
  set (c := (byte_val b0 - 224) * 4096 + (byte_val b1 - 128) * 64
            + (byte_val b2 - 128)).
  assert (Hc : c = (byte_val b0 - 224) * 4096 + (byte_val b1 - 128) * 64
                   + (byte_val b2 - 128)) by reflexivity.
  clearbody c.
  assert (H1' : 128 <= byte_val b1 <= 191
                /\ (byte_val b0 = 224 -> 160 <= byte_val b1)
                /\ (byte_val b0 = 237 -> byte_val b1 <= 159))
    by (revert H1; decide_tests).
  clear H1.
  destruct (Z.ltb_spec c 0); [lia|].
  destruct (Z.ltb_spec c 128); [lia|].
  destruct (Z.ltb_spec c 2048); [lia|].
  destruct (Z.ltb_spec c 65536); [|lia].
  destruct (Z.leb_spec 55296 c); destruct (Z.leb_spec c 57343);
    cbn [andb]; try lia.
  all: rewrite shiftr_12, shiftr_6, !land_3F, lor_E0, !lor_80 by euclid.
  all: replace (224 + c / 4096) with (byte_val b0) by euclid.
  all: replace (128 + c / 64 mod 64) with (byte_val b1) by euclid.
  all: replace (128 + c mod 64) with (byte_val b2) by euclid.
  all: rewrite !byte_of_val; reflexivity.
Qed.

Lemma utf8_encode_char_4 (b0 b1 b2 b3 : byte) :
  0xF0 <= byte_val b0 <= 0xF4 ->
  (if byte_val b0 =? 0xF0 then 0x90 else 0x80) <= byte_val b1
  <= (if byte_val b0 =? 0xF4 then 0x8F else 0xBF) ->
  0x80 <= byte_val b2 <= 0xBF -> 0x80 <= byte_val b3 <= 0xBF ->
  utf8_encode_char ((byte_val b0 - 240) * 262144 + (byte_val b1 - 128) * 4096
                    + (byte_val b2 - 128) * 64 + (byte_val b3 - 128))
  = Ok [b0; b1; b2; b3].
Proof.
  intros H0 H1 H2 H3. unfold utf8_encode_char.
  set (c := (byte_val b0 - 240) * 262144 + (byte_val b1 - 128) * 4096
            + (byte_val b2 - 128) * 64 + (byte_val b3 - 128)).
  assert (Hc : c = (byte_val b0 - 240) * 262144 + (byte_val b1 - 128) * 4096
                   + (byte_val b2 - 128) * 64 + (byte_val b3 - 128))
    by reflexivity.
  clearbody c.
  assert (H1' : 128 <= byte_val b1 <= 191
                /\ (byte_val b0 = 240 -> 144 <= byte_val b1)
                /\ (byte_val b0 = 244 -> byte_val b1 <= 143))
    by (revert H1; decide_tests).
  clear H1.
  destruct (Z.ltb_spec c 0); [lia|].
  destruct (Z.ltb_spec c 128); [lia|].
  destruct (Z.ltb_spec c 2048); [lia|].
  destruct (Z.ltb_spec c 65536); [lia|].
  destruct (Z.ltb_spec c 1114112); [|lia].
  rewrite shiftr_18, shiftr_12, shiftr_6, !land_3F, lor_F0, !lor_80 by euclid.
  replace (240 + c / 262144) with (byte_val b0) by euclid.
  replace (128 + c / 4096 mod 64) with (byte_val b1) by euclid.
  replace (128 + c / 64 mod 64) with (byte_val b2) by euclid.
  replace (128 + c mod 64) with (byte_val b3) by euclid.
  rewrite !byte_of_val. reflexivity.
Qed.

(** The decoder is the encoder read backwards, on one character. *)
Lemma utf8_decode_encode_char (c : Z) (bc rest : bytes) :
  utf8_encode_char c = Ok bc ->
  utf8_decode (bc ++ rest) = decoded c (utf8_decode rest).
Proof.
  unfold utf8_encode_char.
  destruct (Z.ltb_spec c 0); [discriminate|].
  destruct (Z.ltb_spec c 128).
  { intros [= <-]. cbn [app].
    rewrite utf8_decode_1 by (rewrite byte_val_of by lia; lia).
    rewrite byte_val_of by lia. reflexivity. }
  destruct (Z.ltb_spec c 2048).
  { intros [= <-]. cbn [app].
    rewrite shiftr_6, land_3F, lor_C0, lor_80 by euclid.
    rewrite utf8_decode_2 by (rewrite byte_val_of by euclid; euclid).
    f_equal. rewrite !byte_val_of by euclid. euclid. }
  destruct (Z.ltb_spec c 65536).
  { destruct (Z.leb_spec 55296 c); destruct (Z.leb_spec c 57343);
      cbn [andb]; try discriminate; intros [= <-]; cbn [app].
    all: rewrite shiftr_12, shiftr_6, !land_3F, lor_E0, !lor_80 by euclid.
    all: rewrite utf8_decode_3
      by (rewrite !byte_val_of by euclid; decide_tests; euclid).
    all: f_equal; rewrite !byte_val_of by euclid; euclid. }
  destruct (Z.ltb_spec c 1114112); [|discriminate].
  intros [= <-]. cbn [app].
  rewrite shiftr_18, shiftr_12, shiftr_6, !land_3F, lor_F0, !lor_80 by euclid.
  rewrite utf8_decode_4
    by (rewrite !byte_val_of by euclid; decide_tests; euclid).
  f_equal. rewrite !byte_val_of by euclid. euclid.
Qed.

(** Decoding what was encoded gives the string back. *)
Lemma utf8_decode_encode (s : str) (p : bytes) :
  utf8_encode s = Ok p -> utf8_decode p = Ok s.
Proof.
  revert p. induction s as [|c s IH]; intros p H; cbn in H.
  - injection H as <-. reflexivity.
  - destruct (utf8_encode_char c) as [bc|] eqn:Ec; [|discriminate].
    destruct (utf8_encode s) as [bs|] eqn:Es; [|discriminate].
    injection H as <-.
    rewrite (utf8_decode_encode_char c bc bs Ec), (IH bs eq_refl).
    reflexivity.
Qed.

Lemma utf8_encode_char_nonempty (c : Z) (bc : bytes) :
  utf8_encode_char c = Ok bc -> bc <> [].
Proof.
  unfold utf8_encode_char.
  repeat match goal with
         | |- context [if ?t then _ else _] => destruct t
         end; intros [= <-]; discriminate.
Qed.

(** What the decoder does with the first bytes of a non-empty input: it
    rejects them, or they are the encoding of one character and the decoder
    goes on after them. *)
Lemma utf8_decode_step (b0 : byte) (r0 : bytes) :
  utf8_decode (b0 :: r0) = Raise UnicodeDecodeError
  \/ exists c bc rest,
       b0 :: r0 = bc ++ rest /\ (length rest <= length r0)%nat
       /\ utf8_encode_char c = Ok bc
       /\ utf8_decode (b0 :: r0) = decoded c (utf8_decode rest).
Proof.
  destruct (Z.ltb_spec (byte_val b0) 128) as [H1|H1].
  { right. exists (byte_val b0), [b0], r0.
    repeat split; [lia | apply utf8_encode_char_1; lia
                  | apply utf8_decode_1; lia]. }
  assert (E1 : (byte_val b0 <? 128) = false) by (apply Z.ltb_ge; lia).
  destruct (in_range 0xC2 0xDF b0) eqn:E2.
  { destruct r0 as [|b1 r];
      [left; cbn [utf8_decode]; cbv zeta; rewrite E1, E2; reflexivity|].
    destruct (in_range 0x80 0xBF b1) eqn:E3;
      [|left; cbn [utf8_decode]; cbv zeta; rewrite E1, E2, E3; reflexivity].
    apply in_range_spec in E2, E3. right.
    exists ((byte_val b0 - 192) * 64 + (byte_val b1 - 128)), [b0; b1], r.
    repeat split; [cbn; lia | apply utf8_encode_char_2; lia
                  | apply utf8_decode_2; lia]. }
  destruct (in_range 0xE0 0xEF b0) eqn:E3.
  { destruct r0 as [|b1 [|b2 r]];
      try (left; cbn [utf8_decode]; cbv zeta; rewrite E1, E2, E3;
           reflexivity).
    destruct (in_range (if byte_val b0 =? 0xE0 then 0xA0 else 0x80)
                       (if byte_val b0 =? 0xED then 0x9F else 0xBF) b1)
      eqn:E4;
      [|left; cbn [utf8_decode]; cbv zeta; rewrite E1, E2, E3, E4;
        reflexivity].
    destruct (in_range 0x80 0xBF b2) eqn:E5;
      [|left; cbn [utf8_decode]; cbv zeta; rewrite E1, E2, E3, E4, E5;
        reflexivity].
    apply in_range_spec in E3, E4, E5. right.
    exists ((byte_val b0 - 224) * 4096 + (byte_val b1 - 128) * 64
            + (byte_val b2 - 128)), [b0; b1; b2], r.
    repeat split; [cbn; lia | apply utf8_encode_char_3; assumption || lia
                  | apply utf8_decode_3; assumption || lia]. }
  destruct (in_range 0xF0 0xF4 b0) eqn:E4;
    [|left; cbn [utf8_decode]; cbv zeta; rewrite E1, E2, E3, E4;
      reflexivity].
  destruct r0 as [|b1 [|b2 [|b3 r]]];
    try (left; cbn [utf8_decode]; cbv zeta; rewrite E1, E2, E3, E4;
         reflexivity).
  destruct (in_range (if byte_val b0 =? 0xF0 then 0x90 else 0x80)
                     (if byte_val b0 =? 0xF4 then 0x8F else 0xBF) b1)
    eqn:E5;
    [|left; cbn [utf8_decode]; cbv zeta; rewrite E1, E2, E3, E4, E5;
      reflexivity].
  destruct (in_range 0x80 0xBF b2) eqn:E6;
    [|left; cbn [utf8_decode]; cbv zeta; rewrite E1, E2, E3, E4, E5, E6;
      reflexivity].
  destruct (in_range 0x80 0xBF b3) eqn:E7;
    [|left; cbn [utf8_decode]; cbv zeta;
      rewrite E1, E2, E3, E4, E5, E6, E7; reflexivity].
  apply in_range_spec in E4, E5, E6, E7. right.
  exists ((byte_val b0 - 240) * 262144 + (byte_val b1 - 128) * 4096
          + (byte_val b2 - 128) * 64 + (byte_val b3 - 128)),
    [b0; b1; b2; b3], r.
  repeat split; [cbn; lia | apply utf8_encode_char_4; assumption || lia
                | apply utf8_decode_4; assumption || lia].
Qed.

(** The only error of the decoder is [UnicodeDecodeError], and a string that
    it returns encodes to the bytes it was given: with
    [utf8_decode_encode], [utf8_decode p = Ok s] exactly when
    [utf8_encode s = Ok p]. *)
Lemma utf8_decode_sound_upto (k : nat) (p : bytes) :
  (length p <= k)%nat ->
  match utf8_decode p with
  | Ok s => utf8_encode s = Ok p
  | Raise e => e = UnicodeDecodeError
  end.
Proof.
  revert p. induction k as [|k IH]; intros p Hk.
  - destruct p; [reflexivity | cbn in Hk; lia].
  - destruct p as [|b0 r0]; [reflexivity|]. cbn [length] in Hk.
    destruct (utf8_decode_step b0 r0)
      as [-> | (c & bc & rest & Hsplit & Hlen & Henc & ->)]; [reflexivity|].
    specialize (IH rest ltac:(lia)).
    destruct (utf8_decode rest) as [s'|e]; cbn [decoded]; [|exact IH].
    cbn [utf8_encode]. rewrite Henc, IH, Hsplit. reflexivity.
Qed.

Lemma utf8_encode_decode (p : bytes) (s : str) :
  utf8_decode p = Ok s -> utf8_encode s = Ok p.
Proof.
  intros H. pose proof (utf8_decode_sound_upto (length p) p (le_n _)) as Hs.
  rewrite H in Hs. exact Hs.
Qed.


Lemma utf8_decode_iff (p : bytes) (s : str) :
  utf8_decode p = Ok s <-> utf8_encode s = Ok p.
Proof. split; [apply utf8_encode_decode | apply utf8_decode_encode]. Qed.





Lemma utf8_encode_ascii (s : str) :
  is_ascii s -> utf8_encode s = Ok (map byte_of s).
Proof.
  induction 1 as [|c s Hc _ IH]; [reflexivity|].
  cbn [utf8_encode map]. unfold utf8_encode_char.
  destruct (Z.ltb_spec c 0); [lia|].
  destruct (Z.ltb_spec c 0x80); [|lia].
  rewrite IH. reflexivity.
Qed.

Lemma utf8_decode_ascii (s : str) :
  is_ascii s -> utf8_decode (map byte_of s) = Ok s.
Proof.
  induction 1 as [|c s Hc _ IH]; [reflexivity|].
  cbn [utf8_decode map]. rewrite byte_val_of by lia.
  destruct (Z.ltb_spec c 0x80); [|lia].
  rewrite IH. reflexivity.
Qed.

(** On ASCII strings the character count that [get_string] writes is the
    byte length that [parse_string] reads, and the round trip holds. *)
Lemma get_string_roundtrip_ascii (s : str) :
  is_ascii s ->
  exists bs,
    get_string s = Some (Ok bs) /\
    forall rest, parse_string (bs ++ rest) = Ok (s, rest).
Proof.
  intros Hs. destruct s as [|c s].
  - exists [x00]. split; [reflexivity|]. intros rest. reflexivity.
  - set (t := c :: s) in *.
    assert (Hlen : 0 <= len t) by (unfold len; lia).
    destruct (get_uleb128_loop_parse (S (Z.to_nat (Z.log2 (len t)))) (len t) []
                Hlen) as (u & Hu & _ & Hparse).
    { pose proof (Z.log2_nonneg (len t)). lia. }
    exists ([x0b] ++ u ++ map byte_of t). split.
    + change (get_string t) with
        (match get_uleb128 (len t) with
         | None => None
         | Some (Raise e) => Some (Raise e)
         | Some (Ok u) =>
             match utf8_encode t with
             | Raise e => Some (Raise e)
             | Ok p => Some (Ok (([x0b] ++ u) ++ p))
             end
         end).
      unfold get_uleb128. rewrite Hu. cbn [app].
      rewrite utf8_encode_ascii by exact Hs. reflexivity.
    + intros rest. cbn [app]. rewrite <- app_assoc.
      rewrite (parse_string_payload x0b _ (map byte_of t ++ rest) (len t)).
      * unfold len. rewrite Nat2Z.id.
        rewrite <- (length_map byte_of t).
        rewrite take_app_length, drop_app_length.
        rewrite utf8_decode_ascii by exact Hs. reflexivity.
      * reflexivity.
      * unfold parse_uleb128. rewrite Hparse by lia.
        rewrite Z.shiftl_0_r, Z.lor_0_l. reflexivity.
      * right. unfold len. rewrite length_app, length_map. lia.
Qed.

(** [get_string] counts characters where [parse_string] counts bytes: when
    the UTF-8 encoding of a string is longer than the string, the decoder
    stops inside the payload, so it cannot give the string back and be at
    the end of the encoding. *)
Lemma get_string_stops_short (s : str) (p bs : bytes) :
  utf8_encode s = Ok p ->
  len s < len p ->
  get_string s = Some (Ok bs) ->
  (exists u, get_uleb128 (len s) = Some (Ok u) /\ bs = [x0b] ++ u ++ p) /\
  forall s', parse_string bs <> Ok (s', []).
Proof.
  intros Hp Hlen Hg.
  assert (Hn : 0 <= len s) by (unfold len; lia).
  destruct (get_uleb128_loop_parse (S (Z.to_nat (Z.log2 (len s)))) (len s) []
              Hn) as (u & Hu & _ & Hparse).
  { pose proof (Z.log2_nonneg (len s)). lia. }
  destruct s as [|c s].
  { cbn [utf8_encode] in Hp. inversion Hp; subst.
    unfold len in Hlen. cbn [length] in Hlen. lia. }
  assert (Hbs : bs = [x0b] ++ u ++ p).
  { unfold get_string in Hg.
    change (bytes_of_int 11) with (Ok [x0b]) in Hg. cbv beta iota in Hg.
    unfold get_uleb128 in Hg. rewrite Hu, Hp in Hg.
    inversion Hg. reflexivity. }
  split; [exists u; split; [exact Hu|exact Hbs]|].
  intros s' H. subst bs. cbn [app] in H.
  rewrite (parse_string_payload x0b _ p (len (c :: s)) eq_refl) in H.
  - destruct (utf8_decode _); [|discriminate].
    inversion H as [[Hs Hd]].
    apply (f_equal (@length byte)) in Hd. rewrite length_drop in Hd.
    unfold len in Hlen, Hd. cbn [length] in Hd, Hlen. lia.
  - unfold parse_uleb128. rewrite <- (app_nil_r p) at 1.
    rewrite app_nil_r. rewrite Hparse by lia.
    rewrite Z.shiftl_0_r, Z.lor_0_l. reflexivity.
  - right. lia.
Qed.

(** C3. The round trip of [get_string] and [parse_string] on strings whose
    UTF-8 encoding is longer than their character count: [get_string] writes
    the ULEB128 of [len(string)], the number of characters, before the UTF-8
    bytes, and [parse_string] reads that many bytes. For "é" (one character,
    two bytes) the decoder raises on the first byte of the pair; for "éa" it
    returns "é" and leaves the last byte in the file. *)
Theorem get_string_parse_string_beyond_ascii :
  utf8_encode [233] = Ok [xc3; xa9] /\
  get_string [233] = Some (Ok [x0b; x01; xc3; xa9]) /\
  parse_string [x0b; x01; xc3; xa9] = Raise UnicodeDecodeError /\
  get_string [233; 97] = Some (Ok [x0b; x02; xc3; xa9; x61]) /\
  parse_string [x0b; x02; xc3; xa9; x61] = Ok ([233], [x61]).
Proof. repeat split; reflexivity. Qed.

(** ** Reads at the end of the file *)



Lemma struct_unpack_d_ok (bs : bytes) :
  length bs = 8%nat ->
  struct_unpack_d bs = Ok (Float64 (int_from_bytes_little bs)).
Proof.
  unfold struct_unpack_d. intros ->. reflexivity.
Qed.






(** ** Unknown kinds *)

Lemma kind_of_undocumented (type : string) :
  ~ In type documented_kinds -> kind_of type = KOther.
Proof.
  intros H. unfold kind_of.
  repeat match goal with
  | |- context [String.eqb type ?s] =>
      destruct (String.eqb_spec type s) as [->|_];
      [exfalso; apply H; cbn; tauto|]
  end.
  reflexivity.
Qed.

(** C5 (as the code has it). For every kind name outside the eleven that
    [read_type] knows, the call raises nothing: it reaches the final [else],
    which logs a warning, and returns [None] with the file where it was. *)
Theorem read_type_unknown_kind (type : string) (f : fileobj) :
  ~ In type documented_kinds ->
  kind_of type = KOther /\
  exists v : returns (kind_of type), read_type type f = Ok (v, f).
Proof.
  intros H. pose proof (kind_of_undocumented type H) as E.
  split; [exact E|]. unfold read_type. rewrite E.
  exists PyNone. reflexivity.
Qed.

Lemma read_type_unknown_kind_witness :
  kind_of "Float" = KOther /\
  exists v : returns (kind_of "Float"),
    read_type "Float" [x01; x02] = Ok (v, [x01; x02]).
Proof.
  apply (read_type_unknown_kind "Float" [x01; x02]).
  cbn. intros H.
  repeat match goal with
  | H : _ \/ _ |- _ => destruct H as [H|H]; [discriminate H|]
  end.
  exact H.
Defined.

(** C5 as it is stated does not hold: a read of the unknown kind "Float"
    raises no error, returns [None] and leaves the file in place. *)
Lemma unknown_kind_returns_none :
  ~ In "Float"%string documented_kinds /\
  read_type "Float" [x01; x02] = Ok (PyNone, [x01; x02]).
Proof.
  split; [|reflexivity].
  cbn. intros H.
  repeat match goal with
  | H : _ \/ _ |- _ => destruct H as [H|H]; [discriminate H|]
  end.
  exact H.
Qed.

(** ** Timing points *)

Lemma int_from_to_bytes_little (w : nat) :
  forall n, int_from_bytes_little (int_to_bytes_little w n)
            = n mod 256 ^ Z.of_nat w.
Proof.
  induction w as [|w IH]; intros n.
  - cbn. rewrite Z.mod_1_r. reflexivity.
  - cbn [int_to_bytes_little int_from_bytes_little].
    rewrite byte_val_of by (apply Z.mod_pos_bound; lia).
    rewrite IH. rewrite Nat2Z.inj_succ, Z.pow_succ_r by lia.
    rewrite Z.rem_mul_r by lia. reflexivity.
Qed.

Lemma length_int_to_bytes_little (w : nat) (n : Z) :
  length (int_to_bytes_little w n) = w.
Proof.
  revert n. induction w as [|w IH]; intros n; [reflexivity|].
  cbn [int_to_bytes_little length]. rewrite IH. reflexivity.
Qed.

(** An Int read on the four bytes of [k] returns [k]. *)
Lemma read_int_value (k : Z) (f : fileobj) :
  0 <= k < 2 ^ 32 ->
  read_type "Int" (int_to_bytes_little 4 k ++ f) = Ok (k, f).
Proof.
  intros Hk. change (read_type "Int") with (read_kind KInt).
  unfold read_kind, bind, OSU_INT. rewrite read_nonneg by lia.
  pose proof (length_int_to_bytes_little 4 k) as Hl.
  change (Z.to_nat 4) with 4%nat. rewrite <- Hl at 1 3.
  rewrite take_app_length, drop_app_length. unfold ret.
  rewrite int_from_to_bytes_little.
  change (256 ^ Z.of_nat 4) with (2 ^ 32). rewrite Z.mod_small by lia.
  reflexivity.
Qed.

(** A Timingpoint read on a file with 17 bytes or more. *)
Lemma read_timingpoint_full (f : fileobj) :
  (17 <= length f)%nat ->
  read_type "Timingpoint" f = Ok (timingpoint_of (take 17 f), drop 17 f).
Proof.
  intros H. change (read_type "Timingpoint") with (read_kind KTimingpoint).
  unfold read_kind, bind, OSU_BOOLEAN, OSU_DOUBLE.
  rewrite read_nonneg by lia. unfold lift.
  rewrite struct_unpack_d_ok by (rewrite length_take; lia).
  rewrite read_nonneg by lia.
  rewrite struct_unpack_d_ok by (rewrite length_take, length_drop; lia).
  rewrite read_nonneg by lia. unfold ret, timingpoint_of.
  change (Z.to_nat 8) with 8%nat. change (Z.to_nat 1) with 1%nat.
  rewrite !drop_drop. rewrite !take_take, !take_drop_commute.
  rewrite !take_take. cbn [Nat.add Nat.min]. reflexivity.
Qed.

Lemma repeat_read_timingpoints (n : nat) :
  forall f : fileobj,
    (17 * n <= length f)%nat ->
    repeat_read n (read_type "Timingpoint") f
    = Ok (map timingpoint_of (entries17 n f), drop (17 * n) f).
Proof.
  induction n as [|n IH]; intros f H.
  - cbn [repeat_read entries17 map]. rewrite Nat.mul_0_r. reflexivity.
  - cbn [repeat_read entries17 map]. unfold bind at 1.
    rewrite read_timingpoint_full by lia.
    unfold bind at 1. rewrite IH by (rewrite length_drop; lia).
    unfold ret. rewrite drop_drop.
    replace (17 + 17 * n)%nat with (17 * S n)%nat by lia. reflexivity.
Qed.

Lemma length_entries17 (n : nat) (s : bytes) : length (entries17 n s) = n.
Proof.
  revert s. induction n as [|n IH]; intros s; [reflexivity|].
  cbn [entries17 length]. rewrite IH. reflexivity.
Qed.

(** C9 (as the code has it). When the timing-point count field holds [k] and
    the file has the [17 * k] bytes of the entries after it, the decoder
    returns exactly [k] timing points, each decoded from its own 17 bytes as
    a Double, a Double and a Boolean, and leaves the file just after the
    last entry: it has taken [17 * k] bytes after the four of the count. *)
Theorem read_timingpoints_consumes (k : Z) (s : bytes) :
  0 <= k < 2 ^ 32 ->
  17 * k <= len s ->
  let tps := map timingpoint_of (entries17 (Z.to_nat k) s) in
  read_timingpoints (int_to_bytes_little 4 k ++ s)
  = Ok ((k, tps), drop (Z.to_nat (17 * k)) s) /\
  len tps = k /\
  consumed (for_range k (read_type "Timingpoint")) s = Some (17 * k) /\
  consumed read_timingpoints (int_to_bytes_little 4 k ++ s)
  = Some (4 + 17 * k).
Proof.
  intros Hk Hs tps. unfold len in Hs.
  assert (Hrep : for_range k (read_type "Timingpoint") s
                 = Ok (tps, drop (Z.to_nat (17 * k)) s)).
  { unfold for_range. rewrite repeat_read_timingpoints by lia.
    replace (17 * Z.to_nat k)%nat with (Z.to_nat (17 * k)) by lia.
    reflexivity. }
  assert (Hrt : read_timingpoints (int_to_bytes_little 4 k ++ s)
                = Ok ((k, tps), drop (Z.to_nat (17 * k)) s)).
  { unfold read_timingpoints, bind.
    rewrite read_int_value by exact Hk. rewrite Hrep. reflexivity. }
  split; [exact Hrt|]. split; [|split].
  - unfold tps, len. rewrite length_map, length_entries17. lia.
  - unfold consumed. rewrite Hrep. unfold len.
    rewrite length_drop. f_equal. lia.
  - unfold consumed. rewrite Hrt. unfold len.
    rewrite length_app, length_int_to_bytes_little, length_drop.
    f_equal. lia.
Qed.

Lemma read_timingpoints_consumes_witness :
  read_timingpoints (int_to_bytes_little 4 1 ++ sample_timingpoint ++ [xff])
  = Ok ((1, [(Float64 0x407F400000000000, Float64 0, true)]), [xff]).
Proof.
  apply (read_timingpoints_consumes 1 (sample_timingpoint ++ [xff]));
    [lia | vm_compute; discriminate].
Defined.

(** C9 as it is stated does not hold: two timing points take 34 bytes, not
    [16 * 2 + 1], and none takes no byte, not [16 * 0 + 1]. *)
Lemma two_timingpoints_take_34_bytes :
  read_timingpoints (int_to_bytes_little 4 2 ++ repeat x00 40)
  = Ok ((2, [(Float64 0, Float64 0, false); (Float64 0, Float64 0, false)]),
        repeat x00 6) /\
  consumed (for_range 2 (read_type "Timingpoint")) (repeat x00 40) = Some 34 /\
  34 <> 16 * 2 + 1 /\
  consumed (for_range 0 (read_type "Timingpoint")) (repeat x00 40) = Some 0 /\
  0 <> 16 * 0 + 1.
Proof. repeat split; (reflexivity || discriminate). Qed.

(** ** Records *)

(** C10. In every [Difficulty] that [parse_beatmap] returns, [api_beatmap_id]
    and [beatmap_id] are equal: both are the local [beatmap_id], the first of
    the three Ints read after the timing points. *)
Theorem parse_beatmap_ids_equal (f f' : fileobj) (d : Difficulty) :
  parse_beatmap f = Ok (d, f') ->
  api_beatmap_id d = beatmap_id d /\
  exists v, parse_beatmap_locals f = Ok (v, f') /\
            api_beatmap_id d = v_beatmap_id v /\
            beatmap_id d = v_beatmap_id v.
Proof.
  unfold parse_beatmap, bind. intros H.
  destruct (parse_beatmap_locals f) as [[v f1]|e]; [|discriminate].
  inversion H; subst. split; [reflexivity|].
  exists v. repeat split.
Qed.

Lemma parse_beatmap_ids_equal_witness :
  let d := sample_difficulty [65] 42 7
             [(Float64 0x407F400000000000, Float64 0, true)] in
  api_beatmap_id d = beatmap_id d.
Proof.
  apply (parse_beatmap_ids_equal sample_beatmap []).
  vm_compute. reflexivity.
Defined.

(** The integer kinds and Byte: what is returned and where the file is left. *)
Lemma read_type_int_inv (f f' : fileobj) (x : Z) :
  read_type "Int" f = Ok (x, f') ->
  x = int_from_bytes_little (take 4 f) /\ f' = drop 4 f.
Proof. intros H. inversion H. split; reflexivity. Qed.

Lemma read_type_short_inv (f f' : fileobj) (x : Z) :
  read_type "Short" f = Ok (x, f') ->
  x = int_from_bytes_little (take 2 f) /\ f' = drop 2 f.
Proof. intros H. inversion H. split; reflexivity. Qed.

Lemma read_type_long_inv (f f' : fileobj) (x : Z) :
  read_type "Long" f = Ok (x, f') ->
  x = int_from_bytes_little (take 8 f) /\ f' = drop 8 f.
Proof. intros H. inversion H. split; reflexivity. Qed.

Lemma read_type_byte_inv (f f' : fileobj) (x : bytes) :
  read_type "Byte" f = Ok (x, f') -> x = take 1 f /\ f' = drop 1 f.
Proof. intros H. inversion H. split; reflexivity. Qed.

Lemma read_type_single_inv (f f' : fileobj) (x : pyfloat) :
  read_type "Single" f = Ok (x, f') ->
  x = Float32 (int_from_bytes_little (take 4 f)) /\ f' = drop 4 f /\
  (4 <= length f)%nat.
Proof.
  change (read_type "Single") with (read_kind KSingle).
  unfold read_kind, bind, OSU_SINGLE. rewrite read_nonneg by lia.
  unfold lift, struct_unpack_f. change (Z.to_nat 4) with 4%nat.
  destruct (Nat.eqb_spec (length (take 4 f)) 4) as [E|]; [|discriminate].
  intros H. inversion H. rewrite length_take in E.
  repeat split. lia.
Qed.

Lemma read_type_double_inv (f f' : fileobj) (x : pyfloat) :
  read_type "Double" f = Ok (x, f') ->
  x = Float64 (int_from_bytes_little (take 8 f)) /\ f' = drop 8 f.
Proof.
  change (read_type "Double") with (read_kind KDouble).
  unfold read_kind, bind, OSU_DOUBLE. rewrite read_nonneg by lia.
  unfold lift, struct_unpack_d. change (Z.to_nat 8) with 8%nat.
  destruct (length (take 8 f) =? 8)%nat; [|discriminate].
  intros H. inversion H. split; reflexivity.
Qed.

Lemma unpack4_inv {A} (l : list A) (f f' : fileobj) (a b c d : A) :
  unpack4 l f = Ok ((a, b, c, d), f') -> l = [a; b; c; d] /\ f' = f.
Proof.
  destruct l as [|? [|? [|? [|? [|? ?]]]]]; try discriminate.
  intros H. inversion H. split; reflexivity.
Qed.

Lemma unpack5_inv {A} (l : list A) (f f' : fileobj) (a b c d e : A) :
  unpack5 l f = Ok ((a, b, c, d, e), f') -> l = [a; b; c; d; e] /\ f' = f.
Proof.
  destruct l as [|? [|? [|? [|? [|? [|? ?]]]]]]; try discriminate.
  intros H. inversion H. split; reflexivity.
Qed.

Lemma repeat_read_S_inv {A} (n : nat) (m : M A) (f f' : fileobj)
    (l : list A) :
  repeat_read (S n) m f = Ok (l, f') ->
  exists x f1 xs,
    m f = Ok (x, f1) /\ repeat_read n m f1 = Ok (xs, f') /\ l = x :: xs.
Proof.
  cbn [repeat_read]. unfold bind. intros H.
  destruct (m f) as [[x f1]|]; [|discriminate].
  destruct (repeat_read n m f1) as [[xs f2]|] eqn:E; [|discriminate].
  unfold ret in H. inversion H; subst. exists x, f1, xs.
  split; [reflexivity|]. split; [exact E|reflexivity].
Qed.

(** The four difficulty stats: four Singles, sixteen bytes. *)
Lemma four_singles_inv (f f' : fileobj) (l : list pyfloat) :
  for_range 4 (read_type "Single") f = Ok (l, f') ->
  l = [Float32 (int_from_bytes_little (take 4 f));
       Float32 (int_from_bytes_little (take 4 (drop 4 f)));
       Float32 (int_from_bytes_little (take 4 (drop 8 f)));
       Float32 (int_from_bytes_little (take 4 (drop 12 f)))] /\
  f' = drop 16 f.
Proof.
  unfold for_range. change (Z.to_nat 4) with 4%nat. intros H.
  do 4 (apply repeat_read_S_inv in H;
        destruct H as (? & ? & ? & E & H & ->);
        apply read_type_single_inv in E; destruct E as (-> & -> & _)).
  inversion H. rewrite !drop_drop. split; reflexivity.
Qed.

(** The layout that [parse_beatmap_locals] reads, on every file it decodes:
    after the nine strings come the status Byte, the Long, the three Shorts,
    four Singles of four bytes each and the slider velocity; and the
    trailing Int starts at the byte after the five Boolean flags. *)
Lemma parse_beatmap_locals_layout (f f' : fileobj) (v : locals) :
  parse_beatmap_locals f = Ok (v, f') ->
  (exists strs g,
     repeat_read 9 (read_type "String") f = Ok (strs, g) /\
     v_ranked_status v = take 1 g /\
     v_last_modified v = int_from_bytes_little (take 8 (drop 1 g)) /\
     v_num_hitcircles v = int_from_bytes_little (take 2 (drop 9 g)) /\
     v_num_sliders v = int_from_bytes_little (take 2 (drop 11 g)) /\
     v_num_spinners v = int_from_bytes_little (take 2 (drop 13 g)) /\
     v_ar v = Float32 (int_from_bytes_little (take 4 (drop 15 g))) /\
     v_cs v = Float32 (int_from_bytes_little (take 4 (drop 19 g))) /\
     v_hp v = Float32 (int_from_bytes_little (take 4 (drop 23 g))) /\
     v_od v = Float32 (int_from_bytes_little (take 4 (drop 27 g))) /\
     v_slider_velocity v
     = Float64 (int_from_bytes_little (take 8 (drop 31 g)))) /\
  (exists h h',
     read_batch 5 "Boolean" h
     = Ok ([v_ignore_sounds v; v_ignore_skin v; v_disable_storyboard v;
            v_disable_video v; v_visual_override v], h') /\
     v_unknown_int_modified v = int_from_bytes_little (take 4 h') /\
     v_mania_scroll_speed v = take 1 (drop 4 h') /\
     f' = drop 5 h').
Proof.
  intros H. unfold parse_beatmap_locals in H. unfold bind in H.
  repeat bind_step H.
  unfold ret in H. inversion H; subst v f'. clear H.
  cbn [v_ranked_status v_last_modified v_num_hitcircles v_num_sliders
       v_num_spinners v_ar v_cs v_hp v_od v_slider_velocity
       v_ignore_sounds v_ignore_skin v_disable_storyboard v_disable_video
       v_visual_override v_unknown_int_modified v_mania_scroll_speed].
  split.
  - eexists _, _. split.
    + cbn [repeat_read]. unfold bind, ret.
      repeat match goal with
      | E : read_type "String" _ = Ok _ |- _ =>
          rewrite E; clear E; cbv beta iota
      end.
      reflexivity.
    + repeat match goal with
      | E : read_type "Byte" _ = Ok _ |- _ =>
          apply read_type_byte_inv in E; destruct E as [-> ->]
      | E : read_type "Long" _ = Ok _ |- _ =>
          apply read_type_long_inv in E; destruct E as [-> ->]
      | E : read_type "Short" _ = Ok _ |- _ =>
          apply read_type_short_inv in E; destruct E as [-> ->]
      | E : for_range 4 (read_type "Single") _ = Ok _ |- _ =>
          apply four_singles_inv in E; destruct E as [-> ->]
      | E : unpack4 _ _ = Ok _ |- _ =>
          apply unpack4_inv in E; destruct E as [E ->];
          try (injection E as <- <- <- <-)
      | E : read_type "Double" _ = Ok _ |- _ =>
          apply read_type_double_inv in E; destruct E as [-> ->]
      end.
      rewrite !drop_drop. cbn [Nat.add]. repeat split.
  - match goal with
    | E : read_batch 5 "Boolean" ?h = Ok (?l, ?h'),
      U : unpack5 ?l ?h' = Ok _ |- _ =>
        apply unpack5_inv in U; destruct U as [-> ->]; exists h, h'
    end.
    split; [assumption|].
    match goal with
    | |- _ = int_from_bytes_little (take 4 ?h') /\ _ =>
        match goal with
        | E : read_type "Int" h' = Ok (_, ?h1) |- _ =>
            match goal with
            | B : read_type "Byte" h1 = Ok _ |- _ =>
                apply read_type_int_inv in E; destruct E as [-> ->];
                apply read_type_byte_inv in B; destruct B as [-> ->]
            end
        end
    end.
    rewrite !drop_drop. cbn [Nat.add]. repeat split.
Qed.

(** [read_db] hands the version back and does nothing else with it: the
    records decoded from the bytes after it are the same for every
    version. *)
Lemma read_db_version_blind (v1 v2 : Z) (tail : bytes) :
  0 <= v1 < 2 ^ 32 -> 0 <= v2 < 2 ^ 32 ->
  match read_db (int_to_bytes_little 4 v1 ++ tail) with
  | Ok ((version, beatmaps), rest) =>
      version = v1 /\
      read_db (int_to_bytes_little 4 v2 ++ tail) = Ok ((v2, beatmaps), rest)
  | Raise e => read_db (int_to_bytes_little 4 v2 ++ tail) = Raise e
  end.
Proof.
  intros H1 H2. unfold read_db, bind, ret.
  rewrite !read_int_value by assumption.
  repeat match goal with
  | |- context [match ?x with Ok _ => _ | Raise _ => _ end] =>
      lazymatch x with
      | context [match _ with Ok _ => _ | Raise _ => _ end] => fail
      | _ => destruct x as [[? ?]|?]; cbv beta iota
      end
  end; try reflexivity.
  split; reflexivity.
Qed.

(** C4. The order of the reads after the nine strings. [sample_beatmap] has
    the layout of the format comment: the ranked status 4, the three Shorts
    1, 2 and 3, then the Long [0x1817161514131211]. [parse_beatmap] reads the
    Long straight after the status Byte and the three Shorts after it: the
    last-modified value comes from the six bytes of the Shorts and the first
    two of the Long, and the counts from the last six bytes of the Long. *)
Theorem parse_beatmap_reads_long_before_shorts :
  exists v,
    parse_beatmap_locals sample_beatmap = Ok (v, []) /\
    v_ranked_status v = [x04] /\
    v_last_modified v
    = int_from_bytes_little
        (int_to_bytes_little 2 1 ++ int_to_bytes_little 2 2
         ++ int_to_bytes_little 2 3 ++ [x11; x12]) /\
    v_last_modified v <> 0x1817161514131211 /\
    v_num_hitcircles v = 0x1413 /\
    v_num_sliders v = 0x1615 /\
    v_num_spinners v = 0x1817.
Proof.
  eexists. split; [vm_compute; reflexivity|].
  repeat split. discriminate.
Qed.

(** C2. [parse_beatmap] does not look at the version of the database: it
    reads four Singles and no Short before the trailing Int. On a record in
    the old layout, in a database of version 20140608, the four stat Bytes
    5, 4, 3, 6 come back as the one Single [0x06030405] in [ar], the reads
    that follow are twelve bytes late, and the record is filed under the
    beatmap id 0 and not under its id 42. *)
Theorem parse_beatmap_ignores_version :
  (exists v,
     parse_beatmap_locals (legacy_record 42 7) = Ok (v, []) /\
     v_ar v = Float32 (int_from_bytes_little [x05; x04; x03; x06]) /\
     v_cs v = Float32 0 /\
     v_hp v = Float32 0x3FF00000 /\
     v_total_time v = 42 /\
     v_beatmap_id v = 0 /\
     v_mania_scroll_speed v = []) /\
  parse_beatmap (legacy_record 42 7) = Ok (legacy_misread, []) /\
  read_db (sample_header 20140608 1 ++ legacy_record 42 7)
  = Ok ((20140608, [legacy_misread]), []) /\
  load_db (sample_header 20140608 1 ++ legacy_record 42 7)
  = Ok (assemble [legacy_misread]) /\
  beatmap_id legacy_misread <> 42.
Proof.
  split; [|split; [|split; [|split]]].
  - eexists. split; [vm_compute; reflexivity|]. repeat split.
  - vm_compute. reflexivity.
  - vm_compute. reflexivity.
  - unfold load_db.
    replace (read_db (sample_header 20140608 1 ++ legacy_record 42 7))
      with (Ok ((20140608, [legacy_misread]), @nil byte))
      by (vm_compute; reflexivity).
    reflexivity.
  - discriminate.
Qed.

(** ** The catalog *)

Lemma grouped_setdefault_append (k : Z) (d : Difficulty)
    (mapsets : list (Z * list Difficulty)) :
  grouped (setdefault_append k d mapsets) ≡ₚ grouped mapsets ++ [d].
Proof.
  unfold grouped.
  induction mapsets as [|[k' v] rest IH]; [reflexivity|].
  cbn [setdefault_append]. destruct (k' =? k).
  - cbn [map concat snd]. rewrite <- !app_assoc.
    apply Permutation_app_head. apply Permutation_app_comm.
  - cbn [map concat snd]. rewrite IH. rewrite app_assoc. reflexivity.
Qed.

(** The first loop of [load_db] keeps every record in [mapsets]. *)
Lemma grouped_fold_index_step (beatmaps : list Difficulty) :
  forall st, grouped (snd (fold_left index_step beatmaps st))
             ≡ₚ grouped (snd st) ++ beatmaps.
Proof.
  induction beatmaps as [|d l IH]; intros st.
  - cbn. rewrite app_nil_r. reflexivity.
  - cbn [fold_left]. rewrite IH. unfold index_step at 1. cbn [snd].
    rewrite grouped_setdefault_append. rewrite <- app_assoc. reflexivity.
Qed.

(** The second loop of [load_db] turns each mapset into a song and leaves
    the index as it is. *)
Lemma fold_add_song (mapsets : list (Z * list Difficulty)) :
  forall self,
    let out := fold_left
                 (fun (self : Songs) (mapset : Z * list Difficulty) =>
                    add_song self {| difficulties := snd mapset |})
                 mapsets self in
    bid_mapping out = bid_mapping self /\
    reachable out = reachable self ++ grouped mapsets.
Proof.
  induction mapsets as [|g rest IH]; intros self.
  - cbn. rewrite app_nil_r. split; reflexivity.
  - cbn [fold_left]. destruct (IH (add_song self {| difficulties := snd g |}))
      as [Hb Hr].
    cbv zeta. rewrite Hb, Hr. split; [reflexivity|].
    unfold reachable, grouped, add_song. cbn [songs map concat].
    rewrite map_app, concat_app. cbn [map concat difficulties].
    rewrite app_nil_r, <- app_assoc. reflexivity.
Qed.

Lemma reachable_assemble (beatmaps : list Difficulty) :
  reachable (assemble beatmaps) ≡ₚ beatmaps.
Proof.
  unfold assemble. cbv zeta.
  destruct (fold_add_song (snd (fold_left index_step beatmaps (∅, [])))
              {| songs := [];
                 bid_mapping := fst (fold_left index_step beatmaps (∅, [])) |})
    as [_ Hr].
  cbv zeta in Hr. rewrite Hr. cbn [reachable songs map concat app].
  rewrite grouped_fold_index_step. reflexivity.
Qed.

Lemma bid_mapping_assemble (beatmaps : list Difficulty) :
  bid_mapping (assemble beatmaps)
  = fst (fold_left index_step beatmaps (∅, [])).
Proof.
  unfold assemble. cbv zeta.
  destruct (fold_add_song (snd (fold_left index_step beatmaps (∅, [])))
              {| songs := [];
                 bid_mapping := fst (fold_left index_step beatmaps (∅, [])) |})
    as [Hb _].
  cbv zeta in Hb. rewrite Hb. reflexivity.
Qed.

Lemma bid_mapping_assemble_snoc (beatmaps : list Difficulty) (d : Difficulty) :
  bid_mapping (assemble (beatmaps ++ [d]))
  = <[beatmap_id d := d]> (bid_mapping (assemble beatmaps)).
Proof.
  rewrite !bid_mapping_assemble. rewrite fold_left_app. reflexivity.
Qed.

(** The index holds, under each id, the last record that carries it. *)
Lemma bid_mapping_last (beatmaps : list Difficulty) (k : Z) (d : Difficulty) :
  bid_mapping (assemble beatmaps) !! k = Some d <-> last_with_id beatmaps k d.
Proof.
  revert d. induction beatmaps as [|x l IH] using rev_ind; intros d.
  - rewrite bid_mapping_assemble. cbn [fold_left fst].
    rewrite lookup_empty. split; [discriminate|].
    intros (l1 & l2 & E & _). destruct l1; discriminate E.
  - rewrite bid_mapping_assemble_snoc. unfold last_with_id. split.
    + intros H. destruct (decide (beatmap_id x = k)) as [Ek|Nk].
      * subst k. rewrite lookup_insert_eq in H. inversion H; subst.
        exists l, []. repeat split. constructor.
      * rewrite lookup_insert_ne in H by exact Nk.
        apply IH in H. destruct H as (l1 & l2 & E & Hk & Hall).
        exists l1, (l2 ++ [x]). subst l. rewrite <- app_assoc.
        repeat split; [assumption|].
        apply Forall_app. split; [assumption|]. constructor; [assumption|constructor].
    + intros (l1 & l2 & E & Hk & Hall).
      destruct l2 as [|y l2 _] using rev_ind.
      * apply app_inj_tail in E. destruct E as [_ ->].
        subst k. apply lookup_insert_eq.
      * change (l1 ++ d :: l2 ++ [y]) with (l1 ++ (d :: l2) ++ [y]) in E.
        rewrite app_assoc in E. apply app_inj_tail in E.
        destruct E as [El ->].
        apply Forall_app in Hall. destruct Hall as [Hall Hy].
        inversion Hy; subst.
        rewrite lookup_insert_ne by assumption.
        apply IH. exists l1, l2. repeat split; assumption.
Qed.

Lemma load_db_assemble (file : bytes) (catalog : Songs) :
  load_db file = Ok catalog ->
  exists version beatmaps rest,
    read_db file = Ok ((version, beatmaps), rest) /\
    catalog = assemble beatmaps.
Proof.
  unfold load_db. intros H.
  destruct (read_db file) as [[[version beatmaps] rest]|e]; [|discriminate].
  inversion H. exists version, beatmaps, rest. split; reflexivity.
Qed.

(** C8 (as the code has it). In every catalog that [load_db] returns, the
    records reachable from the songs are the decoded records, each as many
    times as it was decoded, and [bid_mapping] holds under each id the last
    decoded record that carries it: every entry is keyed by the id of its own
    record and is a reachable record, a record is in the index when no later
    record carries its id, and when the ids of the decoded records are all
    different every reachable record is in the index under its own id and
    under no other key. *)
Theorem load_db_index (file : bytes) (catalog : Songs) :
  load_db file = Ok catalog ->
  exists version beatmaps rest,
    read_db file = Ok ((version, beatmaps), rest) /\
    reachable catalog ≡ₚ beatmaps /\
    (forall k d,
       bid_mapping catalog !! k = Some d <-> last_with_id beatmaps k d) /\
    (forall k d,
       bid_mapping catalog !! k = Some d ->
       beatmap_id d = k /\ d ∈ reachable catalog) /\
    (NoDup (map beatmap_id beatmaps) ->
     forall d, d ∈ reachable catalog ->
       forall k, bid_mapping catalog !! k = Some d <-> k = beatmap_id d).
Proof.
  intros H. destruct (load_db_assemble file catalog H)
    as (version & beatmaps & rest & Hread & ->).
  exists version, beatmaps, rest. split; [exact Hread|].
  split; [apply reachable_assemble|].
  split; [intros k d; apply bid_mapping_last|].
  split.
  - intros k d Hk. apply bid_mapping_last in Hk.
    destruct Hk as (l1 & l2 & E & Hid & _). split; [exact Hid|].
    rewrite reachable_assemble. subst beatmaps.
    apply elem_of_app. right. left.
  - intros Hnd d Hd k. rewrite reachable_assemble in Hd.
    rewrite bid_mapping_last. split.
    + intros (_ & _ & _ & Hid & _). symmetry. exact Hid.
    + intros ->. apply list_elem_of_split in Hd.
      destruct Hd as (l1 & l2 & ->). exists l1, l2.
      repeat split. rewrite map_app in Hnd. cbn [map] in Hnd.
      apply NoDup_app in Hnd. destruct Hnd as (_ & _ & Hnd).
      apply NoDup_cons in Hnd. destruct Hnd as [Hnotin _].
      apply Forall_forall. intros d' Hin Heq. apply Hnotin.
      rewrite <- Heq. apply list_elem_of_fmap. exists d'. split; [reflexivity|exact Hin].
Qed.

Lemma load_db_index_witness :
  exists version beatmaps rest,
    read_db sample_file = Ok ((version, beatmaps), rest) /\
    reachable (assemble [sample_difficulty [65] 42 7
                 [(Float64 0x407F400000000000, Float64 0, true)]])
    ≡ₚ beatmaps.
Proof.
  destruct (load_db_index sample_file
              (assemble [sample_difficulty [65] 42 7
                           [(Float64 0x407F400000000000, Float64 0, true)]]))
    as (version & beatmaps & rest & Hread & Hperm & _).
  - vm_compute. reflexivity.
  - exists version, beatmaps, rest. split; assumption.
Defined.

(** C8 as it is stated does not hold when two records carry the same id: in
    the catalog of [duplicate_id_file] the first record, titled "A", is
    reachable from its song, and no key of [bid_mapping] leads to it: the
    second record, titled "B", took its place under 42. *)
Lemma duplicate_id_drops_earlier_record :
  let a := sample_difficulty [65] 42 7
             [(Float64 0x407F400000000000, Float64 0, true)] in
  let b := sample_difficulty [66] 42 7 [] in
  load_db duplicate_id_file = Ok (assemble [a; b]) /\
  a ∈ reachable (assemble [a; b]) /\
  (forall k, bid_mapping (assemble [a; b]) !! k <> Some a) /\
  bid_mapping (assemble [a; b]) !! 42 = Some b.
Proof.
  intros a b. split; [vm_compute; reflexivity|]. split; [|split].
  - rewrite reachable_assemble. left.
  - intros k H. apply bid_mapping_last in H.
    destruct H as (l1 & l2 & E & Hid & Hall).
    destruct l1 as [|x [|y l1]].
    + inversion E; subst l2. inversion Hall as [|? ? Hb _]; subst.
      apply Hb. reflexivity.
    + solve [inversion E].
    + inversion E as [[Ex Ey El]]. destruct l1; discriminate El.
  - apply bid_mapping_last. exists [a], []. repeat split. constructor.
Qed.

(** * More of the codec *)

(** ** Fixed-width reads *)

Lemma struct_unpack_f_ok (bs : bytes) :
  length bs = 4%nat ->
  struct_unpack_f bs = Ok (Float32 (int_from_bytes_little bs)).
Proof.
  unfold struct_unpack_f. intros ->. reflexivity.
Qed.

Lemma consumed_drop {A} (m : M A) (f : fileobj) (x : A) (w : Z) :
  0 <= w <= len f ->
  m f = Ok (x, drop (Z.to_nat w) f) -> consumed m f = Some w.
Proof.
  intros Hw H. unfold consumed. rewrite H. unfold len in *.
  rewrite length_drop. f_equal. lia.
Qed.

(** A fixed-width read on a file that has the bytes. *)
Lemma read_type_fixed (type : string) (f : fileobj) (w : Z) :
  declared_width (kind_of type) = Some w ->
  w <= len f ->
  exists x, read_type type f = Ok (x, drop (Z.to_nat w) f) /\
            consumed (read_type type) f = Some w.
Proof.
  intros Hw Hlen. unfold read_type, len in *.
  assert (Hgoal : exists x, read_kind (kind_of type) f
                            = Ok (x, drop (Z.to_nat w) f)).
  { destruct (kind_of type); inversion Hw; subst w; clear Hw;
      unfold read_kind, bind, ret, lift,
        OSU_BYTE, OSU_SHORT, OSU_INT, OSU_LONG, OSU_SINGLE, OSU_DOUBLE,
        OSU_BOOLEAN, OSU_DATETIME in *;
      repeat first
        [ rewrite read_nonneg by lia
        | rewrite struct_unpack_d_ok
            by (rewrite length_take, ?length_drop; lia)
        | rewrite struct_unpack_f_ok
            by (rewrite length_take, ?length_drop; lia)
        | progress cbv beta iota ];
      rewrite ?drop_drop; eexists; reflexivity. }
  destruct Hgoal as [x Hx]. exists x. split; [exact Hx|].
  apply (consumed_drop _ f x w); [|exact Hx].
  unfold len. split; [|lia].
  destruct (kind_of type); inversion Hw; subst w; vm_compute; discriminate.
Qed.

(** X1. On a file that has the bytes, a read of a fixed-width kind never
    raises and takes exactly the width of the kind: 1 for Byte and Boolean,
    2 for Short, 4 for Int and Single, 8 for Long, Double and DateTime, 14
    for IntDoublepair and 17 for Timingpoint. *)
Theorem read_type_fixed_width (type : string) (f : fileobj) (w : Z) :
  declared_width (kind_of type) = Some w ->
  w <= len f ->
  exists x, read_type type f = Ok (x, drop (Z.to_nat w) f) /\
            consumed (read_type type) f = Some w.
Proof. apply read_type_fixed. Qed.

Lemma read_type_fixed_width_witness :
  exists x,
    read_type "IntDoublepair" (repeat x01 20)
    = Ok (x, drop (Z.to_nat 14) (repeat x01 20)) /\
    consumed (read_type "IntDoublepair") (repeat x01 20) = Some 14.
Proof.
  apply (read_type_fixed_width "IntDoublepair" (repeat x01 20) 14).
  - reflexivity.
  - vm_compute. discriminate.
Defined.

Lemma int_from_bytes_little_range (bs : bytes) :
  0 <= int_from_bytes_little bs < 256 ^ len bs.
Proof.
  unfold len. induction bs as [|b bs IH].
  - cbn. lia.
  - cbn [int_from_bytes_little length].
    rewrite Nat2Z.inj_succ, Z.pow_succ_r by lia.
    pose proof (byte_val_range b). nia.
Qed.

Lemma int_from_take_range (n : nat) (f : fileobj) :
  0 <= int_from_bytes_little (take n f) < 256 ^ Z.of_nat n.
Proof.
  pose proof (int_from_bytes_little_range (take n f)) as H.
  unfold len in H. rewrite length_take in H.
  split; [lia|].
  eapply Z.lt_le_trans; [apply H|].
  apply Z.pow_le_mono_r; lia.
Qed.

(** X2. Whatever the file holds, and however short it is, an Int read
    returns a number in [0, 2^32), a Short read one in [0, 2^16), and a Long
    or DateTime read one in [0, 2^64): the integer reads are unsigned. *)
Theorem integer_reads_unsigned (f f' : fileobj) (x : Z) :
  (read_type "Int" f = Ok (x, f') -> 0 <= x < 2 ^ 32) /\
  (read_type "Short" f = Ok (x, f') -> 0 <= x < 2 ^ 16) /\
  (read_type "Long" f = Ok (x, f') -> 0 <= x < 2 ^ 64) /\
  (read_type "DateTime" f = Ok (x, f') -> 0 <= x < 2 ^ 64).
Proof.
  split; [|split; [|split]]; intros H; inversion H; subst;
    first [ apply (int_from_take_range 4)
          | apply (int_from_take_range 2)
          | apply (int_from_take_range 8) ].
Qed.

Lemma integer_reads_unsigned_witness :
  0 <= 0xFFFFFFFF < 2 ^ 32 /\ 0 <= 0xFF < 2 ^ 16.
Proof.
  split.
  - apply (proj1 (integer_reads_unsigned (repeat xff 5) [xff] 0xFFFFFFFF)).
    reflexivity.
  - apply (proj1 (proj2 (integer_reads_unsigned [xff] [] 0xFF))).
    reflexivity.
Defined.

Lemma byte_eqb_zero (b : byte) : Byte.eqb b x00 = (byte_val b =? 0).
Proof. destruct b; reflexivity. Qed.

(** X3. A Boolean read on a file that is not at its end takes one byte and
    returns [False] when that byte is 0x00 and [True] for each of the 255
    other bytes. *)
Theorem read_boolean (b : byte) (f : fileobj) :
  read_type "Boolean" (b :: f) = Ok (negb (byte_val b =? 0), f) /\
  (read_type "Boolean" (b :: f) = Ok (false, f) <-> b = x00).
Proof.
  assert (H : read_type "Boolean" (b :: f) = Ok (negb (byte_val b =? 0), f)).
  { change (read_type "Boolean" (b :: f))
      with (Ok (negb (Byte.eqb b x00 && true), f)).
    rewrite andb_true_r, byte_eqb_zero. reflexivity. }
  split; [exact H|]. rewrite H. split.
  - intros E. inversion E as [E'].
    apply negb_false_iff in E'. rewrite <- byte_eqb_zero in E'.
    apply Byte.byte_dec_bl. exact E'.
  - intros ->. reflexivity.
Qed.

Lemma read_boolean_witness :
  read_type "Boolean" [x00; x07] = Ok (false, [x07]).
Proof.
  apply (proj2 (read_boolean x00 [x07])). reflexivity.
Defined.

(** X4. An IntDoublepair read takes 14 bytes and returns the Int of bytes 1
    to 4 and the Double of bytes 6 to 13: the two tag bytes, 0 and 5, are
    read and dropped, whatever they hold. *)
Theorem read_intdoublepair_ignores_tags (t1 t2 : byte) (i d : bytes)
    (rest : fileobj) :
  length i = 4%nat -> length d = 8%nat ->
  read_type "IntDoublepair" ([t1] ++ i ++ [t2] ++ d ++ rest)
  = Ok ((int_from_bytes_little i, Float64 (int_from_bytes_little d)), rest).
Proof.
  intros Hi Hd.
  destruct i as [|i0 [|i1 [|i2 [|i3 [|? ?]]]]]; try discriminate Hi.
  destruct d as [|d0 [|d1 [|d2 [|d3 [|d4 [|d5 [|d6 [|d7 [|? ?]]]]]]]]];
    try discriminate Hd.
  reflexivity.
Qed.

Lemma read_intdoublepair_ignores_tags_witness :
  read_type "IntDoublepair"
    ([xaa] ++ [x01; x00; x00; x00] ++ [xbb] ++ repeat x00 8 ++ [xff])
  = Ok ((int_from_bytes_little [x01; x00; x00; x00],
         Float64 (int_from_bytes_little (repeat x00 8))), [xff]).
Proof.
  apply (read_intdoublepair_ignores_tags xaa xbb [x01; x00; x00; x00]
           (repeat x00 8) [xff]); reflexivity.
Defined.

(** X5. [get_int] and the Int read are inverse on [0, 2^32): [get_int n] is
    four bytes and an Int read on a file that starts with them returns [n]
    and leaves the file after them. Outside that range [get_int] raises
    [struct.error]. *)
Theorem get_int_roundtrip (n : Z) :
  (0 <= n < 2 ^ 32 ->
   exists bs, get_int n = Ok bs /\ len bs = 4 /\
              forall rest, read_type "Int" (bs ++ rest) = Ok (n, rest)) /\
  (n < 0 \/ 2 ^ 32 <= n -> get_int n = Raise StructError).
Proof.
  unfold get_int, struct_pack_I. split.
  - intros Hn.
    replace ((0 <=? n) && (n <? 2 ^ 32)) with true
      by (symmetry; apply andb_true_iff; lia).
    exists (int_to_bytes_little 4 n). split; [reflexivity|]. split.
    + unfold len. rewrite length_int_to_bytes_little. reflexivity.
    + intros rest. apply read_int_value. exact Hn.
  - intros Hn.
    replace ((0 <=? n) && (n <? 2 ^ 32)) with false; [reflexivity|].
    symmetry. apply andb_false_iff. lia.
Qed.

Lemma get_int_roundtrip_witness :
  (exists bs, get_int 20150203 = Ok bs /\ len bs = 4 /\
              forall rest, read_type "Int" (bs ++ rest) = Ok (20150203, rest))
  /\ get_int (-1) = Raise StructError.
Proof.
  split.
  - apply (proj1 (get_int_roundtrip 20150203)). lia.
  - apply (proj2 (get_int_roundtrip (-1))). lia.
Defined.

(** ** Batches *)

Lemma repeat_read_length {A} (n : nat) (m : M A) :
  forall f l f', repeat_read n m f = Ok (l, f') -> length l = n.
Proof.
  induction n as [|n IH]; intros f l f' H.
  - inversion H. reflexivity.
  - apply repeat_read_S_inv in H. destruct H as (x & f1 & xs & _ & H & ->).
    cbn [length]. f_equal. eapply IH. exact H.
Qed.

Lemma repeat_read_app {A} (n k : nat) (m : M A) :
  forall f,
    repeat_read (n + k) m f
    = (let* x := repeat_read n m in
       let* y := repeat_read k m in
       ret (x ++ y)) f.
Proof.
  induction n as [|n IH]; intros f.
  - cbn [Nat.add repeat_read]. unfold bind, ret.
    destruct (repeat_read k m f) as [[y f1]|]; reflexivity.
  - cbn [Nat.add repeat_read]. unfold bind, ret in *.
    destruct (m f) as [[x f1]|]; [|reflexivity].
    rewrite IH.
    destruct (repeat_read n m f1) as [[xs f2]|]; [|reflexivity].
    destruct (repeat_read k m f2) as [[ys f3]|]; reflexivity.
Qed.

(** X6. A batch read that returns has read exactly [cnt] values, none when
    [cnt] is negative; and a batch of no value, or of a negative count,
    touches nothing: it returns the empty list and the file as it was. *)
Theorem read_batch_count (cnt : Z) (type : string) (f : fileobj) :
  (forall l f', read_batch cnt type f = Ok (l, f') -> len l = Z.max 0 cnt) /\
  (cnt <= 0 -> read_batch cnt type f = Ok ([], f)).
Proof.
  unfold read_batch, for_range. split.
  - intros l f' H. apply repeat_read_length in H. unfold len. lia.
  - intros H. replace (Z.to_nat cnt) with 0%nat by lia. reflexivity.
Qed.

Lemma read_batch_count_witness :
  len [1; 2] = Z.max 0 2 /\
  read_batch (-3) "Long" [x01] = Ok ([], [x01]).
Proof.
  split.
  - apply (proj1 (read_batch_count 2 "Short" [x01; x00; x02; x00; x09])
             [1; 2] [x09]).
    reflexivity.
  - apply (proj2 (read_batch_count (-3) "Long" [x01])). lia.
Defined.

(** X7. Batches compose: reading [a + b] values at once is reading [a]
    values and then [b] values from where the first batch stopped. *)
Theorem read_batch_split (a b : Z) (type : string) (f : fileobj) :
  0 <= a -> 0 <= b ->
  read_batch (a + b) type f
  = (let* x := read_batch a type in
     let* y := read_batch b type in
     ret (x ++ y)) f.
Proof.
  intros Ha Hb. unfold read_batch, for_range.
  rewrite Z2Nat.inj_add by assumption. apply repeat_read_app.
Qed.

Lemma read_batch_split_witness :
  read_batch (1 + 2) "Byte" [x01; x02; x03; x04]
  = (let* x := read_batch 1 "Byte" in
     let* y := read_batch 2 "Byte" in
     ret (x ++ y)) [x01; x02; x03; x04].
Proof. apply (read_batch_split 1 2 "Byte" [x01; x02; x03; x04]); lia. Defined.

(** X8. A batch stops at the first read that raises: when the first [a]
    reads return and the next one raises, every batch of more than [a]
    values raises that exception, and no list is returned. *)
Theorem read_batch_first_failure (a cnt : Z) (type : string)
    (f f1 : fileobj) (l : list (returns (kind_of type))) (e : exn) :
  0 <= a < cnt ->
  read_batch a type f = Ok (l, f1) ->
  read_type type f1 = Raise e ->
  read_batch cnt type f = Raise e.
Proof.
  intros Ha Hl He. unfold read_batch, for_range in *.
  replace (Z.to_nat cnt)
    with (Z.to_nat a + S (Z.to_nat (cnt - a - 1)))%nat by lia.
  rewrite repeat_read_app. unfold bind at 1. rewrite Hl.
  cbn [repeat_read]. unfold bind. rewrite He. reflexivity.
Qed.

Lemma read_batch_first_failure_witness :
  read_batch 5 "Double" (repeat x00 20) = Raise StructError.
Proof.
  apply (read_batch_first_failure 2 5 "Double" (repeat x00 20)
           (repeat x00 4) [Float64 0; Float64 0] StructError);
    [lia | reflexivity | reflexivity].
Defined.

(** ** More on ULEB128 *)

Lemma continue_flag (b : byte) :
  Z.shiftr (Z.land (byte_val b) 0x80) 7
  = if byte_val b <? 128 then 0 else 1.
Proof. destruct b; reflexivity. Qed.

Lemma parse_uleb128_loop_all_continue (f : fileobj) :
  Forall continues f ->
  forall r shift, parse_uleb128_loop r shift f = Raise IndexError.
Proof.
  induction 1 as [|b f Hb _ IH]; intros r shift; [reflexivity|].
  cbn [parse_uleb128_loop]. rewrite continue_flag.
  unfold continues in Hb. destruct (Z.ltb_spec (byte_val b) 128); [lia|].
  cbn [Z.eqb]. apply IH.
Qed.

(** X9. [parse_uleb128] on a file in which every byte left has the
    continuation bit, the file at its end included, raises IndexError: it
    reads to the end looking for the last byte and returns no number. *)
Theorem parse_uleb128_unterminated (f : fileobj) :
  Forall continues f -> parse_uleb128 f = Raise IndexError.
Proof.
  intros H. apply parse_uleb128_loop_all_continue. exact H.
Qed.

Lemma parse_uleb128_unterminated_witness :
  parse_uleb128 [x80; xff; x81] = Raise IndexError.
Proof.
  apply (parse_uleb128_unterminated [x80; xff; x81]).
  repeat constructor; unfold continues; vm_compute; discriminate.
Defined.

Lemma uleb128_value_nonneg (bs : bytes) : 0 <= uleb128_value bs.
Proof.
  induction bs as [|b bs IH]; cbn [uleb128_value]; [lia|].
  pose proof (Z.mod_pos_bound (byte_val b) 128). lia.
Qed.

Lemma low7_mod (n : Z) : Z.land n 0x7F = n mod 128.
Proof. change 0x7F with (Z.ones 7). rewrite Z.land_ones by lia. reflexivity. Qed.

(** A digit below 128 under the number [v] shifted by seven bits. *)
Lemma digit_lor (a v shift : Z) :
  0 <= a < 128 -> 0 <= shift ->
  Z.lor (Z.shiftl a shift) (Z.shiftl v (shift + 7))
  = Z.shiftl (a + 128 * v) shift.
Proof.
  intros Ha Hs.
  rewrite <- (split7_shifted (a + 128 * v) shift) by exact Hs.
  rewrite low7_mod, Z.shiftr_div_pow2 by lia. change (2 ^ 7) with 128.
  assert (E1 : (a + 128 * v) mod 128 = a).
  { rewrite (Z.mul_comm 128 v), Z.mod_add by lia. apply Z.mod_small. lia. }
  assert (E2 : (a + 128 * v) / 128 = v).
  { rewrite (Z.mul_comm 128 v), Z.div_add by lia.
    rewrite (Z.div_small a 128) by lia. lia. }
  rewrite E1, E2. reflexivity.
Qed.

Lemma parse_uleb128_loop_value (pre : bytes) (last : byte) (rest : fileobj) :
  Forall continues pre -> ~ continues last ->
  forall r shift,
    0 <= shift ->
    parse_uleb128_loop r shift (pre ++ last :: rest)
    = Ok (Z.lor r (Z.shiftl (uleb128_value (pre ++ [last])) shift), rest).
Proof.
  intros Hpre Hlast. unfold continues in Hlast.
  induction Hpre as [|b pre Hb _ IH]; intros r shift Hs.
  - cbn [app parse_uleb128_loop uleb128_value]. rewrite continue_flag.
    destruct (Z.ltb_spec (byte_val last) 128); [|lia]. cbn [Z.eqb].
    rewrite low7_mod, Z.mul_0_r, Z.add_0_r. reflexivity.
  - cbn [app parse_uleb128_loop uleb128_value]. rewrite continue_flag.
    unfold continues in Hb. destruct (Z.ltb_spec (byte_val b) 128); [lia|].
    cbn [Z.eqb]. rewrite IH by lia. rewrite <- Z.lor_assoc.
    rewrite low7_mod, digit_lor; [reflexivity| |exact Hs].
    apply Z.mod_pos_bound. lia.
Qed.

Lemma parse_uleb128_decode (pre : bytes) (last : byte) (rest : fileobj) :
  Forall continues pre -> ~ continues last ->
  parse_uleb128 (pre ++ last :: rest)
  = Ok (uleb128_value (pre ++ [last]), rest).
Proof.
  intros Hpre Hlast. unfold parse_uleb128.
  rewrite parse_uleb128_loop_value by (assumption || lia).
  rewrite Z.shiftl_0_r, Z.lor_0_l. reflexivity.
Qed.

(** X10. What [parse_uleb128] returns: on a file that starts with bytes that
    all have the continuation bit and then a byte without it, the number is
    the sum of the low seven bits of those bytes, the first byte least
    significant ([d0 + 128 * d1 + 128^2 * d2 + ...]), and the file is left
    just after the byte without the bit. *)
Theorem parse_uleb128_value (pre : bytes) (last : byte) (rest : fileobj) :
  Forall continues pre -> ~ continues last ->
  parse_uleb128 (pre ++ last :: rest)
  = Ok (uleb128_value (pre ++ [last]), rest).
Proof. apply parse_uleb128_decode. Qed.

Lemma parse_uleb128_value_witness :
  parse_uleb128 ([xe5; x8e] ++ x26 :: [xff])
  = Ok (uleb128_value ([xe5; x8e] ++ [x26]), [xff]).
Proof.
  apply (parse_uleb128_value [xe5; x8e] x26 [xff]).
  - repeat constructor; unfold continues; vm_compute; discriminate.
  - unfold continues. vm_compute. intros H. apply H. reflexivity.
Defined.

Lemma uleb128_value_app (a b : bytes) :
  uleb128_value (a ++ b) = uleb128_value a + 128 ^ len a * uleb128_value b.
Proof.
  unfold len. induction a as [|x a IH].
  - cbn. lia.
  - cbn [app uleb128_value length]. rewrite IH.
    rewrite Nat2Z.inj_succ, Z.pow_succ_r by lia. ring.
Qed.

(** X11. [parse_uleb128] takes encodings that are longer than they need be:
    setting the continuation bit of the last byte of an encoding and adding
    a 0x00 byte gives a byte string that decodes to the same number. So the
    decoder returns the same number for byte strings of different
    lengths. *)
Theorem parse_uleb128_overlong (pre : bytes) (last : byte) (rest : fileobj) :
  Forall continues pre -> ~ continues last ->
  parse_uleb128 (pre ++ byte_of (byte_val last + 128) :: x00 :: rest)
  = Ok (uleb128_value (pre ++ [last]), rest) /\
  parse_uleb128 (pre ++ last :: rest)
  = Ok (uleb128_value (pre ++ [last]), rest).
Proof.
  intros Hpre Hlast. split; [|apply parse_uleb128_decode; assumption].
  unfold continues in Hlast. pose proof (byte_val_range last) as Hr.
  assert (Hv : byte_val (byte_of (byte_val last + 128)) = byte_val last + 128)
    by (apply byte_val_of; lia).
  replace (pre ++ byte_of (byte_val last + 128) :: x00 :: rest)
    with ((pre ++ [byte_of (byte_val last + 128)]) ++ x00 :: rest)
    by (rewrite <- app_assoc; reflexivity).
  rewrite parse_uleb128_decode.
  - f_equal. f_equal. rewrite <- app_assoc.
    rewrite !uleb128_value_app. cbn [app uleb128_value]. rewrite Hv.
    change (byte_val x00) with 0. change (0 mod 128) with 0.
    replace (byte_val last + 128) with (byte_val last + 1 * 128) by lia.
    rewrite Z.mod_add by lia. ring.
  - apply Forall_app. split; [exact Hpre|].
    constructor; [|constructor]. unfold continues. lia.
  - unfold continues. change (byte_val x00) with 0. lia.
Qed.

Lemma parse_uleb128_overlong_witness :
  parse_uleb128 ([] ++ byte_of (byte_val x05 + 128) :: x00 :: [x41])
  = Ok (uleb128_value ([] ++ [x05]), [x41]) /\
  parse_uleb128 ([] ++ x05 :: [x41]) = Ok (uleb128_value ([] ++ [x05]), [x41]).
Proof.
  apply (parse_uleb128_overlong [] x05 [x41]).
  - constructor.
  - unfold continues. vm_compute. intros H. apply H. reflexivity.
Defined.

Lemma flagged_value (x : Z) : 0 <= x < 128 -> Z.lor x 0x80 = x + 128.
Proof.
  intros Hx. pose proof (digit_lor x 1 0 Hx (Z.le_refl 0)) as H.
  rewrite !Z.shiftl_0_r in H.
  change (Z.shiftl 1 (0 + 7)) with 128 in H. rewrite H. lia.
Qed.

(** The bytes that the encoder loop adds: all but the last have the
    continuation bit, they stand for the number, and there are as many as
    the number has digits in base 128, one for 0. *)
Lemma get_uleb128_loop_shape (fuel : nat) :
  forall (n : Z) (acc : bytes),
    0 <= n -> Z.log2 n < Z.of_nat fuel ->
    exists pre last,
      get_uleb128_loop fuel n acc = Some (Ok (acc ++ pre ++ [last])) /\
      Forall continues pre /\ ~ continues last /\
      uleb128_value (pre ++ [last]) = n /\
      n < 128 ^ (len pre + 1) /\
      (0 < n -> 128 ^ len pre <= n /\ 0 < byte_val last) /\
      (n = 0 -> pre = []).
Proof.
  induction fuel as [|fuel IH]; intros n acc Hn Hfuel.
  - pose proof (Z.log2_nonneg n). lia.
  - cbn [get_uleb128_loop].
    pose proof (low7_range n) as Hlow.
    assert (Hdm : n = 128 * (n / 128) + n mod 128) by (apply Z.div_mod; lia).
    pose proof (Z.mod_pos_bound n 128 ltac:(lia)) as Hmod.
    rewrite Z.shiftr_div_pow2 by lia. change (2 ^ 7) with 128.
    destruct (Z.eqb_spec (n / 128) 0) as [Hz|Hnz].
    + destruct (bytes_of_int_ok (Z.land n 0x7F)) as (b & Hb & Hv); [lia|].
      rewrite Hb. exists [], b. rewrite low7_mod in Hv.
      split; [reflexivity|]. split; [constructor|].
      unfold continues, len. cbn [length app uleb128_value].
      change (Z.of_nat 0) with 0.
      rewrite (Z.mod_small (byte_val b) 128) by lia.
      change (128 ^ (0 + 1)) with 128. change (128 ^ 0) with 1.
      repeat split; lia.
    + destruct (bytes_of_int_ok (Z.lor (Z.land n 0x7F) 0x80)) as (b & Hb & Hv).
      { apply low7_flagged_range. }
      rewrite Hb. rewrite flagged_value in Hv by exact Hlow.
      assert (Hq : 0 < n / 128).
      { assert (0 <= n / 128) by (apply Z.div_pos; lia). lia. }
      destruct (IH (n / 128) (acc ++ [b]) ltac:(lia)) as
        (pre & last & Hloop & Hpre & Hlast & Hval & Hub & Hlb & _).
      { replace (n / 128) with (Z.shiftr n 7)
          by (rewrite Z.shiftr_div_pow2 by lia; reflexivity).
        rewrite Z.log2_shiftr by lia.
        assert (7 <= Z.log2 n).
        { apply Z.log2_le_pow2; [lia|]. change (2 ^ 7) with 128. lia. }
        lia. }
      destruct (Hlb Hq) as [Hlb1 Hlb2].
      exists (b :: pre), last. split.
      * rewrite Hloop. rewrite <- !app_assoc. reflexivity.
      * split; [constructor; [unfold continues; lia|exact Hpre]|].
        split; [exact Hlast|].
        split.
        { cbn [app uleb128_value]. rewrite Hval, Hv, low7_mod.
          euclid. }
        unfold len in *. cbn [length]. rewrite Nat2Z.inj_succ.
        replace (Z.succ (Z.of_nat (length pre)) + 1)
          with (Z.succ (Z.of_nat (length pre) + 1)) by lia.
        rewrite !Z.pow_succ_r by lia.
        split; [lia|]. split; [intros _; split; lia | lia].
Qed.

(** A byte string of [k] bytes stands for a number below [128^k]. *)
Lemma uleb128_value_bound (bs : bytes) :
  0 <= uleb128_value bs < 128 ^ len bs.
Proof.
  induction bs as [|b bs IH]; cbn [uleb128_value].
  - unfold len. cbn. lia.
  - unfold len in *. cbn [length]. rewrite Nat2Z.inj_succ.
    rewrite Z.pow_succ_r by lia.
    pose proof (Z.mod_pos_bound (byte_val b) 128 ltac:(lia)). lia.
Qed.

(** X12. The byte string that [get_uleb128] returns for a non-negative
    integer is its shortest encoding: every byte but the last has the
    continuation bit, the last has not, the bytes stand for the integer, and
    no byte string that stands for it is shorter. The number of bytes is the
    number of base-128 digits of the integer ([128^(len-1) <= n < 128^len])
    and the last byte is non-zero, but for 0, which is the one byte 00. *)
Theorem get_uleb128_shortest (n : Z) :
  0 <= n ->
  exists pre last,
    get_uleb128 n = Some (Ok (pre ++ [last])) /\
    Forall continues pre /\ ~ continues last /\
    uleb128_value (pre ++ [last]) = n /\
    (forall bs, bs <> [] -> uleb128_value bs = n ->
                len (pre ++ [last]) <= len bs) /\
    n < 128 ^ len (pre ++ [last]) /\
    (0 < n -> 128 ^ (len (pre ++ [last]) - 1) <= n /\ 0 < byte_val last) /\
    (n = 0 -> pre = [] /\ last = x00).
Proof.
  intros Hn. unfold get_uleb128.
  destruct (get_uleb128_loop_shape (S (Z.to_nat (Z.log2 n))) n [] Hn)
    as (pre & last & Hloop & Hpre & Hlast & Hval & Hub & Hlb & Hzero).
  { pose proof (Z.log2_nonneg n). lia. }
  exists pre, last. split; [exact Hloop|]. split; [exact Hpre|].
  split; [exact Hlast|]. split; [exact Hval|].
  assert (Hlen : len (pre ++ [last]) = len pre + 1).
  { unfold len. rewrite length_app. cbn [length]. lia. }
  rewrite Hlen.
  replace (len pre + 1 - 1) with (len pre) by lia.
  split; [|split; [exact Hub|split; [exact Hlb|]]].
  - intros bs Hne Hbs.
    assert (Hpos : 1 <= len bs).
    { destruct bs; [contradiction|]. unfold len. cbn [length]. lia. }
    destruct (Z.eq_dec n 0) as [Hz|Hnz].
    + rewrite (Hzero Hz). unfold len at 1. cbn [length]. lia.
    + destruct (Hlb ltac:(lia)) as [Hlow _].
      pose proof (uleb128_value_bound bs) as Hb. rewrite Hbs in Hb.
      assert (len pre < len bs); [|lia].
      apply (Z.pow_lt_mono_r_iff 128); [lia|lia|lia].
  - intros Hz. specialize (Hzero Hz). subst pre. split; [reflexivity|].
    rewrite Hz in Hloop. vm_compute in Hloop. congruence.
Qed.

Lemma get_uleb128_shortest_witness :
  exists pre last,
    get_uleb128 624485 = Some (Ok (pre ++ [last])) /\
    Forall continues pre /\ ~ continues last /\
    uleb128_value (pre ++ [last]) = 624485 /\
    (forall bs, bs <> [] -> uleb128_value bs = 624485 ->
                len (pre ++ [last]) <= len bs) /\
    624485 < 128 ^ len (pre ++ [last]) /\
    (0 < 624485 ->
     128 ^ (len (pre ++ [last]) - 1) <= 624485 /\ 0 < byte_val last) /\
    (624485 = 0 -> pre = [] /\ last = x00).
Proof. apply (get_uleb128_shortest 624485). lia. Defined.

(** X13. [get_uleb128] does not return on a negative integer: the shift
    never reaches 0, so the loop goes on for ever, whatever it has written
    so far. *)
Theorem get_uleb128_negative (n : Z) :
  n < 0 ->
  (forall fuel acc, get_uleb128_loop fuel n acc = None) /\
  get_uleb128 n = None.
Proof.
  intros Hn. split.
  - intros fuel acc. apply get_uleb128_loop_negative. exact Hn.
  - apply get_uleb128_loop_negative. exact Hn.
Qed.

Lemma get_uleb128_negative_witness :
  (forall fuel acc, get_uleb128_loop fuel (-1) acc = None) /\
  get_uleb128 (-1) = None.
Proof. apply (get_uleb128_negative (-1)). lia. Defined.

(** X14. On strings of ASCII characters, the empty string included,
    [get_string] returns a byte string and [parse_string] on a file that
    starts with it returns the string and leaves the file just after it. *)
Theorem get_string_parse_string_ascii (s : str) :
  is_ascii s ->
  exists bs,
    get_string s = Some (Ok bs) /\
    forall rest, parse_string (bs ++ rest) = Ok (s, rest).
Proof.
  apply get_string_roundtrip_ascii.
Qed.

Lemma get_string_parse_string_ascii_witness :
  exists bs,
    get_string [111; 115; 117; 33] = Some (Ok bs) /\
    forall rest, parse_string (bs ++ rest) = Ok ([111; 115; 117; 33], rest).
Proof.
  apply (get_string_parse_string_ascii [111; 115; 117; 33]).
  repeat constructor; lia.
Defined.

(** * The decoder only reads forward *)

Lemma advances_ret {A} (a : A) : advances (ret a).
Proof. intros f x f' H. inversion H. reflexivity. Qed.

Lemma advances_raise {A} (e : exn) : advances (@raise A e).
Proof. intros f x f' H. discriminate H. Qed.

Lemma advances_lift {A} (r : result_of A) : advances (lift r).
Proof.
  intros f x f' H. unfold lift in H. destruct r; inversion H. reflexivity.
Qed.

Lemma advances_read (n : Z) : advances (read n).
Proof.
  intros f x f' H. unfold read in H. destruct (n <? 0).
  - inversion H. apply suffix_nil.
  - destruct ((n <? 2 ^ 63) || (n <=? Z.of_nat (length f)));
      inversion H. apply suffix_drop.
Qed.

Lemma advances_bind {A B} (m : M A) (k : A -> M B) :
  advances m -> (forall a, advances (k a)) -> advances (bind m k).
Proof.
  intros Hm Hk f x f' H. unfold bind in H.
  destruct (m f) as [[a f1]|] eqn:E; [|discriminate].
  transitivity f1; [eapply Hk; exact H|eapply Hm; exact E].
Qed.

Lemma advances_if {A} (c : bool) (a b : M A) :
  advances a -> advances b -> advances (if c then a else b).
Proof. destruct c; auto. Qed.

#[local] Hint Resolve advances_ret advances_raise advances_lift advances_read
  advances_if : advance.

Lemma advances_repeat_read {A} (n : nat) (m : M A) :
  advances m -> advances (repeat_read n m).
Proof.
  intros Hm. induction n as [|n IH]; cbn [repeat_read].
  - apply advances_ret.
  - apply advances_bind; [exact Hm|]. intros a.
    apply advances_bind; [exact IH|]. intros l. apply advances_ret.
Qed.

Lemma advances_for_range {A} (n : Z) (m : M A) :
  advances m -> advances (for_range n m).
Proof. apply advances_repeat_read. Qed.

Lemma advances_parse_uleb128_loop (r shift : Z) :
  advances (parse_uleb128_loop r shift).
Proof.
  intros f. revert r shift.
  induction f as [|b f IH]; intros r shift x f' H; [discriminate|].
  cbn [parse_uleb128_loop] in H.
  destruct (Z.shiftr (Z.land (byte_val b) 0x80) 7 =? 0).
  - inversion H. apply suffix_cons_r. reflexivity.
  - apply suffix_cons_r. eapply IH. exact H.
Qed.

Lemma advances_parse_uleb128 : advances parse_uleb128.
Proof. apply advances_parse_uleb128_loop. Qed.

#[local] Hint Resolve advances_for_range advances_parse_uleb128 : advance.

Ltac advance :=
  repeat first
    [ apply advances_bind; [solve [auto with advance]|intros ?]
    | match goal with
      | |- advances (match ?p with (_, _) => _ end) => destruct p
      | |- advances (if _ then _ else _) => apply advances_if
      end
    | solve [auto with advance] ].

Lemma advances_parse_string : advances parse_string.
Proof. unfold parse_string. advance. Qed.

#[local] Hint Resolve advances_parse_string : advance.

Lemma advances_read_kind (k : kind) : advances (read_kind k).
Proof. destruct k; unfold read_kind; advance. Qed.

Lemma advances_read_type (type : string) : advances (read_type type).
Proof. apply advances_read_kind. Qed.

Lemma advances_read_batch (cnt : Z) (type : string) :
  advances (read_batch cnt type).
Proof. apply advances_for_range, advances_read_type. Qed.

Lemma advances_unpack3 {A} (l : list A) : advances (unpack3 l).
Proof.
  destruct l as [|? [|? [|? [|? ?]]]]; cbn; auto with advance.
Qed.

Lemma advances_unpack4 {A} (l : list A) : advances (unpack4 l).
Proof.
  destruct l as [|? [|? [|? [|? [|? ?]]]]]; cbn; auto with advance.
Qed.

Lemma advances_unpack5 {A} (l : list A) : advances (unpack5 l).
Proof.
  destruct l as [|? [|? [|? [|? [|? [|? ?]]]]]]; cbn; auto with advance.
Qed.

#[local] Hint Resolve advances_read_type advances_read_batch advances_unpack3
  advances_unpack4 advances_unpack5 : advance.

Lemma advances_read_SR : advances read_SR.
Proof. unfold read_SR. advance. Qed.

Lemma advances_read_timingpoints : advances read_timingpoints.
Proof. unfold read_timingpoints. advance. Qed.

#[local] Hint Resolve advances_read_SR advances_read_timingpoints : advance.

Lemma advances_parse_beatmap_locals : advances parse_beatmap_locals.
Proof. unfold parse_beatmap_locals. advance. Qed.

Lemma advances_parse_beatmap : advances parse_beatmap.
Proof.
  unfold parse_beatmap. apply advances_bind.
  - apply advances_parse_beatmap_locals.
  - intros v. apply advances_ret.
Qed.

#[local] Hint Resolve advances_parse_beatmap : advance.

Lemma advances_read_db : advances read_db.
Proof. unfold read_db. advance. Qed.

(** X15. The decoder never goes back in the file: after any read that
    returns, of one value of any kind, of a batch, of a string, of a whole
    record or of the whole database, the bytes left are a suffix of the
    bytes that were left before. *)
Theorem reads_go_forward (f f' : fileobj) :
  (forall type x, read_type type f = Ok (x, f') -> f' `suffix_of` f) /\
  (forall cnt type l, read_batch cnt type f = Ok (l, f') -> f' `suffix_of` f) /\
  (forall s, parse_string f = Ok (s, f') -> f' `suffix_of` f) /\
  (forall d, parse_beatmap f = Ok (d, f') -> f' `suffix_of` f) /\
  (forall r, read_db f = Ok (r, f') -> f' `suffix_of` f).
Proof.
  split; [|split; [|split; [|split]]].
  - intros type x. apply advances_read_type.
  - intros cnt type l. apply advances_read_batch.
  - intros s. apply advances_parse_string.
  - intros d. apply advances_parse_beatmap.
  - intros r. apply advances_read_db.
Qed.

Lemma reads_go_forward_witness :
  [x41; x42] `suffix_of` [x0b; x01; x70; x41; x42] /\
  (@nil byte) `suffix_of` sample_beatmap.
Proof.
  split.
  - apply (proj1 (proj2 (proj2
             (reads_go_forward [x0b; x01; x70; x41; x42] [x41; x42])))
             [112]).
    reflexivity.
  - apply (proj1 (proj2 (proj2 (proj2 (reads_go_forward sample_beatmap []))))
             (sample_difficulty [65] 42 7
                [(Float64 0x407F400000000000, Float64 0, true)])).
    vm_compute. reflexivity.
Defined.

(** * More of the catalog *)

(** ** [Songs.get_song] *)

Lemma get_song_diff_Some (h : str) (diffs : list Difficulty) (d : Difficulty) :
  get_song_diff h diffs = Some d ->
  exists l1 l2, diffs = l1 ++ d :: l2 /\ hash d = h /\
                Forall (fun d' => hash d' <> h) l1.
Proof.
  induction diffs as [|x diffs IH]; [discriminate|].
  cbn [get_song_diff]. destruct (decide (hash x = h)) as [E|N].
  - intros H. inversion H; subst x. exists [], diffs.
    repeat split; [exact E|constructor].
  - intros H. destruct (IH H) as (l1 & l2 & -> & Hh & Hall).
    exists (x :: l1), l2. repeat split; [exact Hh|].
    constructor; assumption.
Qed.

Lemma get_song_diff_None (h : str) (diffs : list Difficulty) :
  get_song_diff h diffs = None <-> Forall (fun d => hash d <> h) diffs.
Proof.
  induction diffs as [|x diffs IH]; cbn [get_song_diff].
  - split; [constructor|reflexivity].
  - destruct (decide (hash x = h)) as [E|N].
    + split; [discriminate|]. intros H. inversion H; contradiction.
    + rewrite IH. split.
      * intros H. constructor; assumption.
      * intros H. inversion H; assumption.
Qed.

Lemma get_song_loop_Some (h : str) (l : list Song) (song : Song)
    (d : Difficulty) :
  get_song_loop h l = Some (song, d) ->
  exists s1 s2 l1 l2,
    l = s1 ++ song :: s2 /\
    difficulties song = l1 ++ d :: l2 /\
    hash d = h /\
    Forall (fun d' => hash d' <> h) (concat (map difficulties s1) ++ l1).
Proof.
  induction l as [|x l IH]; [discriminate|].
  cbn [get_song_loop].
  destruct (get_song_diff h (difficulties x)) as [d'|] eqn:E.
  - intros H. inversion H; subst x d'.
    apply get_song_diff_Some in E. destruct E as (l1 & l2 & E & Hh & Hall).
    exists [], l, l1, l2. repeat split; assumption.
  - intros H. destruct (IH H) as (s1 & s2 & l1 & l2 & -> & Hd & Hh & Hall).
    exists (x :: s1), s2, l1, l2. repeat split; try assumption.
    cbn [map concat]. rewrite <- app_assoc. apply Forall_app. split.
    + apply get_song_diff_None. exact E.
    + exact Hall.
Qed.

Lemma get_song_loop_None (h : str) (l : list Song) :
  get_song_loop h l = None
  <-> Forall (fun d => hash d <> h) (concat (map difficulties l)).
Proof.
  induction l as [|x l IH]; cbn [get_song_loop map concat].
  - split; [constructor|reflexivity].
  - rewrite Forall_app, <- IH, <- get_song_diff_None.
    destruct (get_song_diff h (difficulties x)); split.
    + discriminate.
    + intros [H _]. discriminate H.
    + intros H. split; [reflexivity|exact H].
    + intros [_ H]. exact H.
Qed.

Lemma get_song_diff_first (h : str) (l1 l2 : list Difficulty)
    (d : Difficulty) :
  hash d = h -> Forall (fun d' => hash d' <> h) l1 ->
  get_song_diff h (l1 ++ d :: l2) = Some d.
Proof.
  intros Hd Hall. induction Hall as [|x l1 Hx Hall IH]; cbn [app get_song_diff].
  - destruct (decide (hash d = h)); [reflexivity|contradiction].
  - destruct (decide (hash x = h)); [contradiction|exact IH].
Qed.

Lemma get_song_loop_first (h : str) (s1 s2 : list Song) (song : Song)
    (l1 l2 : list Difficulty) (d : Difficulty) :
  difficulties song = l1 ++ d :: l2 ->
  hash d = h ->
  Forall (fun d' => hash d' <> h) (concat (map difficulties s1) ++ l1) ->
  get_song_loop h (s1 ++ song :: s2) = Some (song, d).
Proof.
  intros Hsong Hd. induction s1 as [|x s1 IH]; cbn [app map concat get_song_loop].
  - intros Hall. rewrite Hsong, (get_song_diff_first h l1 l2 d Hd Hall).
    reflexivity.
  - rewrite <- app_assoc. intros Hall. apply Forall_app in Hall.
    destruct Hall as [Hx Hall].
    rewrite (proj2 (get_song_diff_None h (difficulties x)) Hx).
    apply IH. exact Hall.
Qed.

(** X16. [get_song] returns the first difficulty with the hash, in the order
    of the songs and of the difficulties in each song, together with the
    song that holds it: the pair [(song, diff)] is returned exactly when
    [song] stands at a place in the list of songs, and [diff] at a place in
    the song's difficulties, such that [diff] has the hash and no difficulty
    of an earlier song, nor an earlier one of this song, has it. So the
    difficulty returned is the first with the hash among all those of the
    catalog. [None] is returned exactly when no difficulty of any song has
    the hash. *)
Theorem get_song_first_match (self : Songs) (song_hash : str) :
  (forall song diff,
     get_song self song_hash = Some (song, diff) <->
     exists s1 s2 l1 l2,
       songs self = s1 ++ song :: s2 /\
       difficulties song = l1 ++ diff :: l2 /\
       hash diff = song_hash /\
       Forall (fun d => hash d <> song_hash)
              (concat (map difficulties s1) ++ l1)) /\
  (forall song diff,
     get_song self song_hash = Some (song, diff) ->
     song ∈ songs self /\ diff ∈ difficulties song /\
     hash diff = song_hash /\
     exists l1 l2,
       reachable self = l1 ++ diff :: l2 /\
       Forall (fun d => hash d <> song_hash) l1) /\
  (get_song self song_hash = None <->
   forall d, d ∈ reachable self -> hash d <> song_hash).
Proof.
  unfold get_song, reachable. split; [|split].
  - intros song diff. split.
    + apply get_song_loop_Some.
    + intros (s1 & s2 & l1 & l2 & -> & Hd & Hh & Hall).
      apply (get_song_loop_first song_hash s1 s2 song l1 l2 diff Hd Hh Hall).
  - intros song diff H. apply get_song_loop_Some in H.
    destruct H as (s1 & s2 & l1 & l2 & Hs & Hd & Hh & Hall).
    rewrite Hs, Hd. split; [apply elem_of_app; right; left|].
    split; [apply elem_of_app; right; left|]. split; [exact Hh|].
    exists (concat (map difficulties s1) ++ l1),
           (l2 ++ concat (map difficulties s2)).
    split; [|exact Hall].
    rewrite map_app, concat_app. cbn [map concat]. rewrite Hd.
    rewrite <- !app_assoc. reflexivity.
  - rewrite get_song_loop_None, Forall_forall. reflexivity.
Qed.

Lemma get_song_first_match_witness :
  let a := sample_difficulty [65] 42 7 [] in
  let b := sample_difficulty [66] 43 7 [] in
  let s := {| difficulties := [a; b] |} in
  let self := {| songs := [s; s]; bid_mapping := ∅ |} in
  exists s1 s2 l1 l2,
    songs self = s1 ++ s :: s2 /\
    difficulties s = l1 ++ a :: l2 /\
    hash a = [] /\
    Forall (fun d => hash d <> []) (concat (map difficulties s1) ++ l1).
Proof.
  intros a b s self.
  apply (proj1 (proj1 (get_song_first_match self []) s a)).
  reflexivity.
Defined.

(** X17. [add_song] and [get_song]: a song added to the collection comes
    after the songs it held, so a hash that was found is still found in the
    same place, and a hash that was not found is looked up in the new song
    alone. *)
Theorem get_song_add_song (self : Songs) (song : Song) (song_hash : str) :
  get_song (add_song self song) song_hash
  = match get_song self song_hash with
    | Some found => Some found
    | None =>
        match get_song_diff song_hash (difficulties song) with
        | Some diff => Some (song, diff)
        | None => None
        end
    end.
Proof.
  unfold get_song, add_song. cbn [songs].
  induction (songs self) as [|x l IH]; cbn [app get_song_loop].
  - reflexivity.
  - destruct (get_song_diff song_hash (difficulties x)); [reflexivity|].
    exact IH.
Qed.

(** ** The songs of a catalog *)

Lemma group_of_cons (k : Z) (d : Difficulty) (l : list Difficulty) :
  group_of k (d :: l)
  = if decide (beatmapset_id d = k) then d :: group_of k l else group_of k l.
Proof. unfold group_of. rewrite filter_cons. reflexivity. Qed.

Lemma setdefault_append_new (k : Z) (d : Difficulty)
    (g : list (Z * list Difficulty)) :
  k ∉ map fst g -> setdefault_append k d g = g ++ [(k, [d])].
Proof.
  induction g as [|[k' v] g IH]; intros H; [reflexivity|].
  cbn [setdefault_append map fst] in *.
  apply not_elem_of_cons in H. destruct H as [Hne H].
  destruct (Z.eqb_spec k' k) as [E|_]; [congruence|].
  rewrite IH by exact H. reflexivity.
Qed.

Lemma setdefault_append_old (k : Z) (d : Difficulty)
    (g : list (Z * list Difficulty)) :
  k ∈ map fst g -> NoDup (map fst g) ->
  setdefault_append k d g
  = map (fun kv => if decide (fst kv = k) then (fst kv, snd kv ++ [d])
                   else kv) g.
Proof.
  induction g as [|[k' v] g IH]; intros Hin Hnd.
  - inversion Hin.
  - cbn [setdefault_append map fst snd] in *.
    apply NoDup_cons in Hnd. destruct Hnd as [Hk' Hnd].
    destruct (Z.eqb_spec k' k) as [E|N].
    + subst k'. destruct (decide (k = k)); [|congruence]. f_equal.
      symmetry. rewrite <- (map_id g) at 2. apply map_ext_Forall.
      apply Forall_forall. intros [k2 v2] H2. cbn [fst snd].
      destruct (decide (k2 = k)) as [->|]; [|reflexivity].
      exfalso. apply Hk'. apply list_elem_of_fmap.
      exists (k, v2). split; [reflexivity|exact H2].
    + destruct (decide (k' = k)); [congruence|]. f_equal.
      apply IH; [|exact Hnd].
      apply elem_of_cons in Hin. destruct Hin as [->|Hin]; [congruence|].
      exact Hin.
Qed.

(** The first loop of [load_db], from any dictionary with distinct keys: the
    sets it held grow by their records, in order, and the new sets come
    after them in the order in which their ids first occur. *)
Lemma fold_index_step_groups (l : list Difficulty) :
  forall m (g : list (Z * list Difficulty)),
    NoDup (map fst g) ->
    snd (fold_left index_step l (m, g))
    = map (fun kv => (fst kv, snd kv ++ group_of (fst kv) l)) g
      ++ map (fun k => (k, group_of k l))
           (filter (fun k => k ∉ map fst g)
              (first_seen (map beatmapset_id l))).
Proof.
  induction l as [|d r IH]; intros m g Hnd.
  - cbn [fold_left snd map first_seen]. rewrite filter_nil. cbn [map].
    rewrite app_nil_r. rewrite <- (map_id g) at 1.
    apply map_ext. intros [k v]. cbn [fst snd]. unfold group_of.
    rewrite filter_nil, app_nil_r. reflexivity.
  - cbn [fold_left]. unfold index_step at 2. cbn [fst snd].
    set (k0 := beatmapset_id d).
    cbn [map first_seen]. fold k0.
    destruct (decide (k0 ∈ map fst g)) as [Hin|Hnin].
    + rewrite (setdefault_append_old k0 d g Hin Hnd).
      assert (Hkeys : map fst (map (fun kv : Z * list Difficulty =>
                         if decide (fst kv = k0)
                         then (fst kv, snd kv ++ [d]) else kv) g)
                      = map fst g).
      { rewrite map_map. apply map_ext. intros [k v]. cbn [fst snd].
        destruct (decide (k = k0)); reflexivity. }
      rewrite IH by (rewrite Hkeys; exact Hnd). rewrite Hkeys.
      rewrite filter_cons_False by (intros H; apply H; exact Hin).
      rewrite list_filter_filter_l by (intros x Hx ->; apply Hx; exact Hin).
      f_equal.
      * rewrite map_map. apply map_ext. intros [k v]. cbn [fst snd].
        rewrite group_of_cons. fold k0.
        destruct (decide (k = k0)) as [->|N]; cbn [fst snd].
        -- destruct (decide (k0 = k0)); [|congruence].
           rewrite <- app_assoc. reflexivity.
        -- destruct (decide (k0 = k)); [congruence|]. reflexivity.
      * apply map_ext_Forall. apply Forall_forall. intros k Hk.
        apply list_elem_of_filter in Hk. destruct Hk as [Hk _].
        rewrite group_of_cons. fold k0.
        destruct (decide (k0 = k)) as [<-|]; [contradiction|reflexivity].
    + rewrite (setdefault_append_new k0 d g Hnin).
      rewrite IH.
      2:{ rewrite map_app. cbn [map fst]. apply NoDup_app.
          split; [exact Hnd|]. split; [|apply NoDup_singleton].
          intros x Hx Hx'. apply list_elem_of_singleton in Hx'. subst x.
          contradiction. }
      rewrite map_app. cbn [map fst snd].
      rewrite filter_cons_True by exact Hnin. cbn [map].
      rewrite <- app_assoc. cbn [app]. f_equal; [|f_equal].
      * apply map_ext_Forall. apply Forall_forall. intros [k v] Hk.
        cbn [fst snd]. rewrite group_of_cons. fold k0.
        destruct (decide (k0 = k)) as [<-|]; [|reflexivity].
        exfalso. apply Hnin. apply list_elem_of_fmap.
        exists (k0, v). split; [reflexivity|exact Hk].
      * rewrite group_of_cons. fold k0.
        destruct (decide (k0 = k0)); [reflexivity|congruence].
      * rewrite list_filter_filter.
        rewrite (list_filter_iff
                   (fun k => k ∉ map fst (g ++ [(k0, [d])]))
                   (fun k => (k ∉ map fst g) /\ k <> k0)).
        2:{ intros x. rewrite map_app. cbn [map fst].
            rewrite elem_of_app, list_elem_of_singleton. tauto. }
        apply map_ext_Forall. apply Forall_forall. intros k Hk.
        apply list_elem_of_filter in Hk. destruct Hk as [[_ Hk] _].
        rewrite group_of_cons. fold k0.
        destruct (decide (k0 = k)); [congruence|reflexivity].
Qed.

Lemma songs_assemble (beatmaps : list Difficulty) :
  songs (assemble beatmaps)
  = map (fun g => {| difficulties := snd g |})
      (snd (fold_left index_step beatmaps (∅, []))).
Proof.
  unfold assemble. cbv zeta.
  generalize (snd (fold_left index_step beatmaps (∅, []))).
  generalize (fst (fold_left index_step beatmaps (∅, []))).
  intros m g.
  assert (H : forall self,
             songs (fold_left
                      (fun (self : Songs) (mapset : Z * list Difficulty) =>
                         add_song self {| difficulties := snd mapset |})
                      g self)
             = songs self ++ map (fun g => {| difficulties := snd g |}) g).
  { induction g as [|x g IH]; intros self; cbn [fold_left map].
    - rewrite app_nil_r. reflexivity.
    - rewrite IH. unfold add_song. cbn [songs].
      rewrite <- app_assoc. reflexivity. }
  rewrite H. reflexivity.
Qed.

(** The songs that [assemble] makes of a list of records. *)
Lemma songs_assemble_groups (beatmaps : list Difficulty) :
  songs (assemble beatmaps)
  = map (fun k => {| difficulties := group_of k beatmaps |})
      (first_seen (map beatmapset_id beatmaps)).
Proof.
  rewrite songs_assemble.
  rewrite (fold_index_step_groups beatmaps ∅ []) by constructor.
  cbn [map app fst].
  rewrite (list_filter_iff _ (fun _ => True)) by
    (intros x; split; [tauto|intros _ Hx; inversion Hx]).
  rewrite map_map. cbn [snd]. f_equal.
  induction (first_seen (map beatmapset_id beatmaps)) as [|x l IH];
    [reflexivity|].
  rewrite filter_cons_True by exact I. f_equal. exact IH.
Qed.

(** X18. How [load_db] groups the records into songs: there is one song for
    each beatmap set id, the songs are in the order in which their set ids
    first occur in the file, and the difficulties of a song are the records
    of its set in the order of the file. *)
Theorem load_db_groups (file : bytes) (catalog : Songs) :
  load_db file = Ok catalog ->
  exists version beatmaps rest,
    read_db file = Ok ((version, beatmaps), rest) /\
    songs catalog
    = map (fun k => {| difficulties := group_of k beatmaps |})
        (first_seen (map beatmapset_id beatmaps)).
Proof.
  intros H. destruct (load_db_assemble file catalog H)
    as (version & beatmaps & rest & Hread & ->).
  exists version, beatmaps, rest. split; [exact Hread|].
  apply songs_assemble_groups.
Qed.

Lemma load_db_groups_witness :
  exists version beatmaps rest,
    read_db duplicate_id_file = Ok ((version, beatmaps), rest) /\
    songs (assemble [sample_difficulty [65] 42 7
                       [(Float64 0x407F400000000000, Float64 0, true)];
                     sample_difficulty [66] 42 7 []])
    = map (fun k => {| difficulties := group_of k beatmaps |})
        (first_seen (map beatmapset_id beatmaps)).
Proof.
  apply (load_db_groups duplicate_id_file).
  vm_compute. reflexivity.
Defined.

Lemma elem_of_first_seen (l : list Z) (x : Z) : x ∈ first_seen l <-> x ∈ l.
Proof.
  induction l as [|y l IH]; cbn [first_seen]; [reflexivity|].
  rewrite !elem_of_cons, list_elem_of_filter, IH.
  destruct (decide (x = y)); tauto.
Qed.

Lemma NoDup_first_seen (l : list Z) : NoDup (first_seen l).
Proof.
  induction l as [|y l IH]; cbn [first_seen]; [constructor|].
  apply NoDup_cons. split.
  - rewrite list_elem_of_filter. intros [H _]. apply H. reflexivity.
  - apply NoDup_filter. exact IH.
Qed.

Lemma elem_of_group_of (k : Z) (l : list Difficulty) (d : Difficulty) :
  d ∈ group_of k l <-> beatmapset_id d = k /\ d ∈ l.
Proof. unfold group_of. rewrite list_elem_of_filter. reflexivity. Qed.

(** X19. The songs of a decoded catalog: no song is empty, the difficulties
    of one song all carry the same beatmap set id, and two different songs
    of the list never share a set id. *)
Theorem load_db_songs (file : bytes) (catalog : Songs) :
  load_db file = Ok catalog ->
  (forall song, song ∈ songs catalog ->
     difficulties song <> [] /\
     forall d1 d2, d1 ∈ difficulties song -> d2 ∈ difficulties song ->
                   beatmapset_id d1 = beatmapset_id d2) /\
  (forall i j s1 s2 d1 d2,
     songs catalog !! i = Some s1 -> songs catalog !! j = Some s2 ->
     d1 ∈ difficulties s1 -> d2 ∈ difficulties s2 ->
     beatmapset_id d1 = beatmapset_id d2 -> i = j).
Proof.
  intros H. destruct (load_db_assemble file catalog H)
    as (version & beatmaps & rest & _ & ->).
  rewrite songs_assemble_groups. split.
  - intros song Hs. apply list_elem_of_fmap in Hs.
    destruct Hs as (k & -> & Hk). cbn [difficulties]. split.
    + apply elem_of_first_seen, list_elem_of_fmap in Hk.
      destruct Hk as (d & Hd & Hin). intros E.
      assert (Hd' : d ∈ group_of k beatmaps)
        by (apply elem_of_group_of; split; [symmetry; exact Hd|exact Hin]).
      rewrite E in Hd'. inversion Hd'.
    + intros d1 d2 H1 H2.
      apply elem_of_group_of in H1. apply elem_of_group_of in H2.
      destruct H1 as [-> _]. destruct H2 as [H2 _]. symmetry. exact H2.
  - intros i j s1 s2 d1 d2 Hi Hj H1 H2 E.
    rewrite list_lookup_fmap in Hi, Hj.
    destruct (first_seen (map beatmapset_id beatmaps) !! i) as [k1|] eqn:E1;
      [|discriminate].
    destruct (first_seen (map beatmapset_id beatmaps) !! j) as [k2|] eqn:E2;
      [|discriminate].
    cbn in Hi, Hj. inversion Hi; subst s1. inversion Hj; subst s2.
    cbn [difficulties] in H1, H2.
    apply elem_of_group_of in H1. apply elem_of_group_of in H2.
    destruct H1 as [<- _]. destruct H2 as [<- _].
    eapply NoDup_lookup; [apply NoDup_first_seen|exact E1|].
    rewrite E. exact E2.
Qed.

Lemma load_db_songs_witness :
  let d := sample_difficulty [65] 42 7
             [(Float64 0x407F400000000000, Float64 0, true)] in
  difficulties {| difficulties := [d] |} <> [] /\
  forall d1 d2,
    d1 ∈ difficulties {| difficulties := [d] |} ->
    d2 ∈ difficulties {| difficulties := [d] |} ->
    beatmapset_id d1 = beatmapset_id d2.
Proof.
  intros d.
  apply (proj1 (load_db_songs sample_file (assemble [d])
                  ltac:(vm_compute; reflexivity))
           {| difficulties := [d] |}).
  rewrite songs_assemble_groups. left.
Defined.

(** ** Looking an id up *)

Lemma bid_mapping_assemble_nil : bid_mapping (assemble []) = ∅.
Proof. reflexivity. Qed.

(** X20. Looking a beatmap id up in the index of a decoded catalog, as the
    console does: an id that no decoded record carries is not in the index,
    and an id that some record carries leads to a record with that id. *)
Theorem load_db_lookup (file : bytes) (catalog : Songs) (k : Z) :
  load_db file = Ok catalog ->
  (bid_mapping catalog !! k = None <->
   forall d, d ∈ reachable catalog -> beatmap_id d <> k) /\
  (forall d, d ∈ reachable catalog -> beatmap_id d = k ->
     exists d', bid_mapping catalog !! k = Some d' /\ beatmap_id d' = k /\
                d' ∈ reachable catalog).
Proof.
  intros H. destruct (load_db_assemble file catalog H)
    as (version & beatmaps & rest & _ & ->).
  clear H.
  assert (Hnone : bid_mapping (assemble beatmaps) !! k = None <->
                  forall d, d ∈ beatmaps -> beatmap_id d <> k).
  { induction beatmaps as [|x l IH] using rev_ind.
    - rewrite bid_mapping_assemble_nil, lookup_empty.
      split; [intros _ d Hd; inversion Hd|reflexivity].
    - rewrite bid_mapping_assemble_snoc.
      destruct (decide (beatmap_id x = k)) as [E|N].
      + rewrite <- E, lookup_insert_eq. split; [discriminate|].
        intros Hall. exfalso. apply (Hall x); [|reflexivity].
        apply elem_of_app. right. left.
      + rewrite lookup_insert_ne by exact N. rewrite IH. split.
        * intros Hall d Hd. apply elem_of_app in Hd.
          destruct Hd as [Hd|Hd]; [apply Hall; exact Hd|].
          apply list_elem_of_singleton in Hd. subst d. exact N.
        * intros Hall d Hd. apply Hall. apply elem_of_app. left. exact Hd. }
  split.
  - rewrite Hnone. split; intros Hall d Hd; apply Hall.
    + rewrite reachable_assemble in Hd. exact Hd.
    + rewrite reachable_assemble. exact Hd.
  - intros d Hd Hk.
    destruct (bid_mapping (assemble beatmaps) !! k) as [d'|] eqn:E.
    + exists d'. split; [reflexivity|].
      apply bid_mapping_last in E. destruct E as (l1 & l2 & -> & Hid & _).
      split; [exact Hid|]. rewrite reachable_assemble.
      apply elem_of_app. right. left.
    + exfalso. apply (proj1 Hnone eq_refl d); [|exact Hk].
      rewrite reachable_assemble in Hd. exact Hd.
Qed.

Lemma load_db_lookup_witness :
  bid_mapping (assemble [sample_difficulty [65] 42 7
                 [(Float64 0x407F400000000000, Float64 0, true)]]) !! 41
  = None <->
  forall d,
    d ∈ reachable (assemble [sample_difficulty [65] 42 7
                     [(Float64 0x407F400000000000, Float64 0, true)]]) ->
    beatmap_id d <> 41.
Proof.
  apply (proj1 (load_db_lookup sample_file
                  (assemble [sample_difficulty [65] 42 7
                     [(Float64 0x407F400000000000, Float64 0, true)]])
                  41 ltac:(vm_compute; reflexivity))).
Defined.

(** ** The header *)

Lemma read_type_boolean_inv (f f' : fileobj) (x : bool) :
  read_type "Boolean" f = Ok (x, f') -> f' = drop 1 f.
Proof. intros H. inversion H. reflexivity. Qed.

Lemma read_type_datetime_inv (f f' : fileobj) (x : Z) :
  read_type "DateTime" f = Ok (x, f') -> f' = drop 8 f.
Proof. intros H. inversion H. reflexivity. Qed.

Lemma read_type_string_inv (f f' : fileobj) (s : str) :
  read_type "String" f = Ok (s, f') -> parse_string f = Ok (s, f').
Proof.
  change (read_type "String") with (read_kind KString).
  unfold read_kind, bind, ret.
  destruct (parse_string f) as [[? ?]|]; intros H; inversion H; reflexivity.
Qed.

(** The header that [read_db] reads and the number of records it returns. *)
Lemma read_db_header (f rest : fileobj) (version : Z)
    (beatmaps : list Difficulty) :
  read_db f = Ok ((version, beatmaps), rest) ->
  version = int_from_bytes_little (take 4 f) /\
  exists player_name g,
    parse_string (drop 17 f) = Ok (player_name, g) /\
    len beatmaps = int_from_bytes_little (take 4 g) /\
    for_range (int_from_bytes_little (take 4 g)) parse_beatmap (drop 4 g)
    = Ok (beatmaps, rest).
Proof.
  intros H. unfold read_db, bind in H.
  repeat bind_step H. unfold ret in H. inversion H; subst. clear H.
  repeat match goal with
  | E : read_type "Int" _ = Ok _ |- _ =>
      apply read_type_int_inv in E; destruct E as [-> ->]
  | E : read_type "Boolean" _ = Ok _ |- _ =>
      apply read_type_boolean_inv in E; subst
  | E : read_type "DateTime" _ = Ok _ |- _ =>
      apply read_type_datetime_inv in E; subst
  end.
  split; [reflexivity|].
  rewrite !drop_drop in *. cbn [Nat.add] in *.
  match goal with
  | E : read_type "String" _ = Ok (?s, ?g) |- _ =>
      exists s, g; split; [apply read_type_string_inv; exact E|];
      pose proof (int_from_take_range 4 g)
  end.
  match goal with
  | E : for_range _ parse_beatmap _ = Ok _ |- _ =>
      split; [|exact E];
      apply repeat_read_length in E; unfold len; rewrite E
  end.
  lia.
Qed.

(** X21. The header and the number of records: the player name starts at
    byte 17 of the file, after the version, the folder count, the flag and
    the unlock time; the Int that follows it is the number of records, and a
    decoded catalog holds exactly that many records. When that Int is 0 the
    catalog has no song and its index is empty. *)
Theorem load_db_record_count (file : bytes) (catalog : Songs) :
  load_db file = Ok catalog ->
  exists player_name g,
    parse_string (drop 17 file) = Ok (player_name, g) /\
    len (reachable catalog) = int_from_bytes_little (take 4 g) /\
    (int_from_bytes_little (take 4 g) = 0 ->
     songs catalog = [] /\ bid_mapping catalog = ∅).
Proof.
  intros H. destruct (load_db_assemble file catalog H)
    as (version & beatmaps & rest & Hread & ->).
  apply read_db_header in Hread.
  destruct Hread as (_ & player_name & g & Hname & Hlen & _).
  exists player_name, g. split; [exact Hname|]. split.
  - unfold len in *. rewrite (Permutation_length (reachable_assemble beatmaps)).
    exact Hlen.
  - intros Hz. rewrite Hz in Hlen. unfold len in Hlen.
    destruct beatmaps; [|cbn [length] in Hlen; lia].
    split; reflexivity.
Qed.

Lemma load_db_record_count_witness :
  exists player_name g,
    parse_string (drop 17 sample_file) = Ok (player_name, g) /\
    len (reachable (assemble [sample_difficulty [65] 42 7
                      [(Float64 0x407F400000000000, Float64 0, true)]]))
    = int_from_bytes_little (take 4 g) /\
    (int_from_bytes_little (take 4 g) = 0 ->
     songs (assemble [sample_difficulty [65] 42 7
              [(Float64 0x407F400000000000, Float64 0, true)]]) = [] /\
     bid_mapping (assemble [sample_difficulty [65] 42 7
                    [(Float64 0x407F400000000000, Float64 0, true)]]) = ∅).
Proof.
  apply (load_db_record_count sample_file). vm_compute. reflexivity.
Defined.

(** ** Batches of fixed-width values *)

Lemma declared_width_pos (k : kind) (w : Z) :
  declared_width k = Some w -> 0 < w.
Proof. destruct k; intros H; inversion H; reflexivity. Qed.

Lemma repeat_read_fixed (type : string) (w : Z) (n : nat) :
  declared_width (kind_of type) = Some w ->
  forall f : fileobj,
    Z.of_nat n * w <= len f ->
    exists l,
      repeat_read n (read_type type) f
      = Ok (l, drop (Z.to_nat (Z.of_nat n * w)) f) /\
      length l = n.
Proof.
  intros Hw. pose proof (declared_width_pos _ _ Hw) as Hpos.
  induction n as [|n IH]; intros f Hlen.
  - exists []. split; reflexivity.
  - destruct (read_type_fixed type f w Hw) as (x & Hx & _); [nia|].
    destruct (IH (drop (Z.to_nat w) f)) as (l & Hl & Hn).
    { unfold len in *. rewrite length_drop. nia. }
    exists (x :: l). split; [|cbn [length]; rewrite Hn; reflexivity].
    cbn [repeat_read]. unfold bind. rewrite Hx. rewrite Hl. unfold ret.
    rewrite drop_drop. do 3 f_equal. nia.
Qed.

(** X22. A batch of [cnt] values of a fixed-width kind, on a file that has
    [cnt] times the width in bytes, does not raise, returns [cnt] values and
    takes exactly [cnt] times the width. *)
Theorem read_batch_fixed_width (cnt : Z) (type : string) (f : fileobj)
    (w : Z) :
  declared_width (kind_of type) = Some w ->
  0 <= cnt ->
  cnt * w <= len f ->
  exists l,
    read_batch cnt type f = Ok (l, drop (Z.to_nat (cnt * w)) f) /\
    len l = cnt /\
    consumed (read_batch cnt type) f = Some (cnt * w).
Proof.
  intros Hw Hcnt Hlen. pose proof (declared_width_pos _ _ Hw) as Hpos.
  unfold read_batch, for_range.
  destruct (repeat_read_fixed type w (Z.to_nat cnt) Hw f) as (l & Hl & Hn).
  { rewrite Z2Nat.id by exact Hcnt. exact Hlen. }
  rewrite Z2Nat.id in Hl by exact Hcnt.
  exists l. split; [exact Hl|]. split; [unfold len; lia|].
  apply (consumed_drop _ f l (cnt * w)); [nia|exact Hl].
Qed.

Lemma read_batch_fixed_width_witness :
  exists l,
    read_batch 3 "Short" (repeat x01 7)
    = Ok (l, drop (Z.to_nat (3 * 2)) (repeat x01 7)) /\
    len l = 3 /\
    consumed (read_batch 3 "Short") (repeat x01 7) = Some (3 * 2).
Proof.
  apply (read_batch_fixed_width 3 "Short" (repeat x01 7) 2);
    [reflexivity | lia | vm_compute; discriminate].
Defined.

(** X23. A star-rating table: when its count field holds [k] and the file
    has the [14 * k] bytes of the pairs after it, [read_SR] returns [k]
    pairs and leaves the file just after the last one, [4 + 14 * k] bytes
    further. *)
Theorem read_SR_consumes (k : Z) (s : bytes) :
  0 <= k < 2 ^ 32 ->
  14 * k <= len s ->
  exists idps,
    read_SR (int_to_bytes_little 4 k ++ s)
    = Ok (idps, drop (Z.to_nat (14 * k)) s) /\
    len idps = k /\
    consumed read_SR (int_to_bytes_little 4 k ++ s) = Some (4 + 14 * k).
Proof.
  intros Hk Hlen.
  destruct (repeat_read_fixed "IntDoublepair" 14 (Z.to_nat k) eq_refl s)
    as (l & Hl & Hn).
  { rewrite Z2Nat.id by lia. lia. }
  rewrite Z2Nat.id in Hl by lia.
  replace (k * 14) with (14 * k) in Hl by lia.
  assert (Hrun : read_SR (int_to_bytes_little 4 k ++ s)
                 = Ok (l, drop (Z.to_nat (14 * k)) s)).
  { unfold read_SR, bind. rewrite read_int_value by exact Hk.
    unfold for_range. rewrite Hl. reflexivity. }
  exists l. split; [exact Hrun|].
  split; [unfold len; etransitivity; [exact (f_equal Z.of_nat Hn)|lia]|].
  unfold consumed. rewrite Hrun. unfold len in *.
  rewrite length_app, length_int_to_bytes_little, length_drop.
  f_equal. lia.
Qed.

Lemma read_SR_consumes_witness :
  exists idps,
    read_SR (int_to_bytes_little 4 2 ++ repeat x00 30)
    = Ok (idps, drop (Z.to_nat (14 * 2)) (repeat x00 30)) /\
    len idps = 2 /\
    consumed read_SR (int_to_bytes_little 4 2 ++ repeat x00 30)
    = Some (4 + 14 * 2).
Proof.
  apply (read_SR_consumes 2 (repeat x00 30));
    [lia | vm_compute; discriminate].
Defined.
